(** * nlogin: the Userbase flat-file record store (index.js)

    A shallow embedding of [index.js]: the rule validator [checkRules], the
    result helper [fail], and the class [Userbase] with its constructor and
    its methods [get], [add], [remove], [save] and [modify].

    Records are JavaScript objects held by reference in the array
    [this.data]; the embedding keeps an explicit object heap so that
    identity ([indexOf]) and in-place mutation ([user[key] = ...]) are the
    source's.  The root file is a path in a file system. *)

From stdpp Require Import gmap strings list pretty.

Local Open Scope Z_scope.

(** ** JavaScript values and objects *)

(** The scalar values a record field, a filter entry or a patch entry holds:
    a string, or [undefined].  Reading a property an object does not have
    gives [undefined]. *)
Inductive value : Type :=
| VUndef
| VStr (s : string).

#[global] Instance value_eq_dec : EqDecision value.
Proof. solve_decision. Defined.

(** A plain object: its own properties.  The enumeration order of the
    properties of a record is not part of this model; the one place where
    the source depends on key order, the field specification given to [add],
    is a list in [Object.keys] order. *)
Abbreviation obj := (gmap string value).

(** What reading a property gives: a scalar, or the member of that name
    that every record inherits from [Object.prototype] (a function, or for
    [__proto__] the prototype itself).  Two such members are the same value
    exactly when they have the same name. *)
Inductive reading : Type :=
| Scalar (v : value)
| Inherited (key : string).

Coercion Scalar : value >-> reading.

#[global] Instance reading_eq_dec : EqDecision reading.
Proof. solve_decision. Defined.

(** The property names of [Object.prototype]. *)
Definition Object_prototype_keys : list string :=
  [ "constructor"; "__defineGetter__"; "__defineSetter__"; "hasOwnProperty";
    "__lookupGetter__"; "__lookupSetter__"; "isPrototypeOf"; "propertyIsEnumerable";
    "toString"; "valueOf"; "__proto__"; "toLocaleString" ].

(** [o[key]]: the own member if there is one, else the inherited one, else
    [undefined]. *)
Definition js_get (o : obj) (key : string) : reading :=
  match o !! key with
  | Some v => Scalar v
  | None => if bool_decide (key ∈ Object_prototype_keys) then Inherited key
            else Scalar VUndef
  end.

(** [o[key] = v] for a scalar [v]: on an object without an own member
    [__proto__], the assignment to [__proto__] reaches the setter of
    [Object.prototype], which ignores a value that is no object. *)
Definition js_set (o : obj) (key : string) (v : value) : obj :=
  if bool_decide (key = "__proto__") && bool_decide (o !! key = None) then o
  else <[key := v]> o.

(** [Object.keys(o)] *)
Definition Object_keys (o : obj) : list string := (map_to_list o).*1.

(** [a !== b] *)
Definition strict_neq (a b : reading) : bool := negb (bool_decide (a = b)).

(** Truthiness of an optional number, string or boolean property: an absent
    property reads as [undefined], which is falsy, as are [0], the empty
    string and [false]. *)
Definition truthy_num (n : option Z) : bool :=
  match n with Some z => negb (z =? 0) | None => false end.

Definition truthy_str (s : option string) : bool :=
  match s with Some s => negb (bool_decide (s = "")) | None => false end.

Definition truthy_bool (b : option bool) : bool :=
  match b with Some b => b | None => false end.

(** What the platform provides.  [RegExp pattern] is [new RegExp(pattern)]:
    [None] when the pattern is no regular expression (a [SyntaxError]),
    else its matcher, which tells whether the pattern matches in a subject
    from a given start index on.  [large_number_string] is the conversion
    of a number to a string from [2^53] up in magnitude, where not every
    digit is printed. *)
Record platform : Type := mkPlatform {
  RegExp : string → option (string → nat → bool);
  large_number_string : Z → string
}.

(** ** Results and exceptions *)

(** [{success: true, ...}] or [{success: false, message}] *)
Inductive result (A : Type) : Type :=
| Success (payload : A)
| Failure (message : string).
Arguments Success {A} payload.
Arguments Failure {A} message.

Definition fail {A : Type} (message : string) : result A := Failure message.


(** [throw new Error(message)], and the [SyntaxError] of a pattern that is
    no regular expression. *)
Inductive exn : Type :=
| Error (message : string)
| SyntaxError (pattern : string).

Inductive completion (A : Type) : Type :=
| Return (a : A)
| Throw (e : exn).
Arguments Return {A} a.
Arguments Throw {A} e.

(** ** Rule sets and field specifications *)

(** A rule key is [None] when the rule set does not have it; the numbers
    are integers. *)
Record RuleSet : Type := mkRuleSet {
  minLength : option Z;
  maxLength : option Z;
  match_ : option string;
  noSpaces : option bool;
  noSpecialCharacters : option bool;
  noNumbers : option bool;
  noLetters : option bool
}.

(** [{value, noDuplicate, rules}]: the value of a field is a string, whose
    [length] and [match] the validator uses; [noDuplicate] absent reads as
    [false]. *)
Record descriptor : Type := mkDescriptor {
  value_ : string;
  noDuplicate : bool;
  rules : option RuleSet
}.

(** The [input] of [add], as [Object.keys(input)] enumerates it. *)
Abbreviation fieldspec := (list (string * descriptor)).

(** ** Character classes of the literal regular expressions

    Strings are sequences of code units below 256. *)

Definition code (c : Ascii.ascii) : N := Ascii.N_of_ascii c.

(** [\s] *)
Definition is_space (c : Ascii.ascii) : bool :=
  let n := code c in
  ((9 <=? n) && (n <=? 13) || (n =? 32) || (n =? 160))%N.

(** [\d] *)
Definition is_digit (c : Ascii.ascii) : bool :=
  let n := code c in ((48 <=? n) && (n <=? 57))%N.

(** [[a-zA-Z]] *)
Definition is_letter (c : Ascii.ascii) : bool :=
  let n := code c in
  ((65 <=? n) && (n <=? 90) || (97 <=? n) && (n <=? 122))%N.

(** [[^a-zA-Z0-9]] *)
Definition is_special (c : Ascii.ascii) : bool := negb (is_letter c || is_digit c).

(** [value.match(/[class]/)] is not null *)
Definition has_char (class : Ascii.ascii → bool) (value : string) : bool :=
  existsb class (String.list_ascii_of_string value).

(** ** The store *)

(** A reference to an object: its index in the heap. *)
Abbreviation loc := nat.

(** What a file holds: text that [JSON.parse] rejects (with the parser's
    complaint), or the JSON document it denotes, an array of objects with
    string members.  The layout of the text is not modelled. *)
Inductive content : Type :=
| Garbage (complaint : string)
| Json (doc : list (gmap string string)).

(** A [Userbase] instance ([rootFile], [data]) with the part of the
    environment it works on: the objects allocated so far and the file
    system. *)
Record Userbase : Type := mkUserbase {
  rootFile : string;
  data : list loc;
  heap : list obj;
  fs : gmap string content
}.

(** The object a reference points to. *)
Definition deref (st : Userbase) (l : loc) : obj := default ∅ (heap st !! l).

(** The records of the store, in order. *)
Definition records (st : Userbase) : list obj := deref st <$> data st.

(** [JSON.stringify] of one object: a member whose value is [undefined] is
    left out. *)
Definition stringify_obj (o : obj) : gmap string string :=
  omap (λ v, match v with VStr s => Some s | VUndef => None end) o.

(** [JSON.stringify(data, null, 4)], as the document written. *)
Definition JSON_stringify (h : list obj) (d : list loc) : list (gmap string string) :=
  (λ l, stringify_obj (default ∅ (h !! l))) <$> d.

(** [JSON.parse]: one fresh object per element of the array. *)
Definition parse_obj (o : gmap string string) : obj := VStr <$> o.

Definition JSON_parse (doc : list (gmap string string)) : list obj :=
  parse_obj <$> doc.

(** [Array.prototype.indexOf]: the first index holding [x], or [-1]. *)
Fixpoint indexOf_from (l : list loc) (x : loc) (i : Z) : Z :=
  match l with
  | [] => -1
  | y :: l' => if decide (y = x) then i else indexOf_from l' x (i + 1)
  end.

Definition indexOf (l : list loc) (x : loc) : Z := indexOf_from l x 0.

(** [Array.prototype.splice(start, deleteCount)]: a negative [start] counts
    from the end. *)
Definition splice {A : Type} (l : list A) (start deleteCount : Z) : list A :=
  let len := Z.of_nat (length l) in
  let s := if start <? 0 then Z.max (len + start) 0 else Z.min start len in
  let c := Z.min (Z.max deleteCount 0) (len - s) in
  take (Z.to_nat s) l ++ drop (Z.to_nat (s + c)) l.

(** ** generateToken, generateID *)

(** One hexadecimal digit, in lower case. *)
Definition hex_digit (n : N) : Ascii.ascii :=
  Ascii.ascii_of_N (if (n <? 10)%N then 48 + n else 87 + n)%N.

(** [buffer.toString('hex')]: two digits for a byte, the high half first. *)
Fixpoint toString_hex (buffer : list Byte.byte) : string :=
  match buffer with
  | [] => ""
  | b :: buffer =>
      String (hex_digit (Byte.to_N b / 16))
        (String (hex_digit (Byte.to_N b mod 16)) (toString_hex buffer))
  end.

(** [generateToken()]; [randomBytes] is what [crypto.randomBytes(64)]
    returns in the call. *)
Definition generateToken (randomBytes : list Byte.byte) : string :=
  toString_hex randomBytes.

(** [generateID()]; [randomBytes] is what [crypto.randomBytes(16)] returns
    in the call. *)
Definition generateID (randomBytes : list Byte.byte) : string :=
  toString_hex randomBytes.

(** [[0-9a-f]] *)
Definition is_hex_lower (c : Ascii.ascii) : bool :=
  let n := code c in
  ((48 <=? n) && (n <=? 57) || (97 <=? n) && (n <=? 102))%N.

(** ** Sample data *)

(** A rule set with [minLength] alone. *)
Definition only_minLength (n : Z) : RuleSet :=
  mkRuleSet (Some n) None None None None None None.

(** A rule set with [match] alone. *)
Definition only_match (pattern : string) : RuleSet :=
  mkRuleSet None None (Some pattern) None None None None.

(** A platform for the examples.  Of the patterns, the examples use only
    [+], which is no regular expression in JavaScript (nothing to repeat),
    as is any pattern that begins with a quantifier; the sample takes any
    other pattern literally, matching at a start index when the subject
    goes on with it from there.  The numbers of the examples are small. *)
Definition sample : platform :=
  {| RegExp := λ pattern,
       match pattern with
       | String c _ =>
           if ((code c =? 42) || (code c =? 43) || (code c =? 63))%N then None
           else Some (λ value i,
                  String.prefix pattern
                    (String.substring i (String.length value - i) value))
       | EmptyString => Some (λ _ _, true)
       end;
     large_number_string := λ _, "" |}.

(** A store over [users.json] holding no record. *)
Definition empty_store : Userbase :=
  {| rootFile := "users.json"; data := []; heap := [];
     fs := {[ "users.json" := Json [] ]} |}.

(** A store holding the record of one user. *)
Definition ann : obj :=
  <["id" := VStr "1f"]> (<["token" := VStr "a0"]> {[ "name" := VStr "ann" ]}).

Definition one_store : Userbase :=
  {| rootFile := "users.json"; data := [0%nat]; heap := [ann];
     fs := {[ "users.json" := Json [stringify_obj ann] ]} |}.

Section Store.

Variable js : platform.

(** Number to string, as string concatenation does it for an integer:
    every digit below [2^53]. *)
Definition num_to_string (n : option Z) : string :=
  let z := default 0 n in
  if Z.abs z <? 2 ^ 53 then pretty z else large_number_string js z.

(** [value.match(regexp)] is not null, for a regular expression without
    flags: the matcher is tried from the start indices [0], [1], ... up to
    the length of the value, until it matches. *)
Definition regex_search (matcher : string → nat → bool) (value : string) : bool :=
  existsb (matcher value) (seq 0 (S (String.length value))).

(** *** checkRules *)

Definition guard (violated : bool) (message : string) (rest : completion (result unit))
    : completion (result unit) :=
  if violated then Return (fail message) else rest.

(** [if (rules.match) if (!value.match(rules.match)) return fail(...)]:
    [value.match] makes the regular expression of the pattern first. *)
Definition match_guard (pattern : option string) (value : string)
    (rest : completion (result unit)) : completion (result unit) :=
  if truthy_str pattern then
    match RegExp js (default "" pattern) with
    | None => Throw (SyntaxError (default "" pattern))
    | Some matcher =>
        guard (negb (regex_search matcher value))
              ("Value must match the following regex: " +:+ default "" pattern) rest
    end
  else rest.

Definition checkRules (value : string) (rules : RuleSet) : completion (result unit) :=
  guard (truthy_num (minLength rules) &&
         (Z.of_nat (String.length value) <? default 0 (minLength rules)))
        ("Value must be at least " +:+ num_to_string (minLength rules) +:+ " characters long!") $
  guard (truthy_num (maxLength rules) &&
         (Z.of_nat (String.length value) >? default 0 (maxLength rules)))
        ("Value must be at most " +:+ num_to_string (maxLength rules) +:+ " characters long!") $
  match_guard (match_ rules) value $
  guard (truthy_bool (noSpaces rules) && has_char is_space value)
        "Value must not contain any spaces!" $
  guard (truthy_bool (noSpecialCharacters rules) && has_char is_special value)
        "Value must not contain any special characters!" $
  guard (truthy_bool (noNumbers rules) && has_char is_digit value)
        "Value must not contain any numbers!" $
  guard (truthy_bool (noLetters rules) && has_char is_letter value)
        "Value must not contain any letters!" $
  Return (Success tt).

(** *** Userbase.constructor

    [fs.existsSync], [fs.writeFileSync] and [fs.readFileSync] are lookup and
    insert on the file system; the last branch is [readFileSync] on a
    missing file, which the line before rules out. *)

Definition constructor (rootFile : string) (files : gmap string content) : completion Userbase :=
  if bool_decide (rootFile = "") then Throw (Error "No root file specified!")
  else
    let files := if bool_decide (is_Some (files !! rootFile)) then files
                 else <[rootFile := Json []]> files in
    match files !! rootFile with
    | Some (Json doc) =>
        Return {| rootFile := rootFile;
                  data := seq 0 (length doc);
                  heap := JSON_parse doc;
                  fs := files |}
    | Some (Garbage e) =>
        Throw (Error ("Invalid JSON stored in root file! (" +:+ e +:+ "): " +:+ rootFile))
    | None => Throw (Error "ENOENT: no such file or directory")
    end.

(** *** Userbase.get

    An argument that is absent (or falsy) is [None]; an object is [Some]. *)

(** The callback of [this.data.filter]: [found] starts [true] and is set
    to [false] at every key where [user[key] !== input[key]]. *)

Definition matches (user input : obj) : bool :=
  fold_left (λ found key,
               if strict_neq (js_get user key) (js_get input key) then false else found)
            (Object_keys input) true.

Definition get (input : option obj) (st : Userbase) : list loc :=
  match input with
  | None => data st
  | Some input => filter (λ user, matches (deref st user) input = true) (data st)
  end.

(** *** Userbase.save *)

Definition save (st : Userbase) : Userbase :=
  {| rootFile := rootFile st;
     data := data st;
     heap := heap st;
     fs := <[rootFile st := Json (JSON_stringify (heap st) (data st))]> (fs st) |}.

(** *** Userbase.add *)

(** The body of the [forEach] callback, on the record under construction
    and the variable [failed].  An exception thrown in the callback leaves
    [forEach]: the fields after it are not visited. *)
Definition add_field (st : Userbase) (acc : completion (obj * option string))
    (field : string * descriptor) : completion (obj * option string) :=
  match acc with
  | Throw e => Throw e
  | Return (user, failed) =>
      let '(key, d) := field in
      let tryCheck := match rules d with
                      | Some r => checkRules (value_ d) r
                      | None => Return (Success tt)
                      end in
      match tryCheck with
      | Throw e => Throw e
      | Return (Failure message) => Return (user, Some message)
      | Return (Success _) =>
          if noDuplicate d &&
             (0 <? Z.of_nat (length (get (Some {[ key := VStr (value_ d) ]}) st)))
          then Return (user, Some ("A user with this " +:+ key +:+ " already exists!"))
          else Return (js_set user key (VStr (value_ d)), failed)
      end
  end.

(** [this.data.push(user)] for a newly built object. *)
Definition push (user : obj) (st : Userbase) : Userbase :=
  {| rootFile := rootFile st;
     data := data st ++ [length (heap st)];
     heap := heap st ++ [user];
     fs := fs st |}.

(** [token] and [id] are what [generateToken()] and [generateID()] return in
    this call. *)
Definition add (input : option fieldspec) (token id : string) (st : Userbase)
    : completion (result loc) * Userbase :=
  match input with
  | None => (Throw (Error "No input specified!"), st)
  | Some input =>
      match fold_left (add_field st) input (Return (∅, None)) with
      | Throw e => (Throw e, st)
      | Return (user, failed) =>
          if truthy_str failed then (Return (fail (default "" failed)), st)
          else
            let user := js_set (js_set user "token" (VStr token)) "id" (VStr id) in
            (Return (Success (length (heap st))), save (push user st))
      end
  end.

(** *** Userbase.remove *)

Definition remove (input : option obj) (st : Userbase) : completion bool * Userbase :=
  match input with
  | None => (Throw (Error "No input specified!"), st)
  | Some input =>
      let users := get (Some input) st in
      if bool_decide (length users = 0%nat) then (Return false, st)
      else
        let data' := fold_left (λ d user, splice d (indexOf d user) 1) users (data st) in
        (Return true,
         save {| rootFile := rootFile st; data := data'; heap := heap st; fs := fs st |})
  end.

(** *** Userbase.modify *)

(** [Object.keys(modify).forEach(key => user[key] = modify[key])], over the
    own members of [modify], each with its value. *)
Definition assign (user modify : obj) : obj :=
  fold_left (λ user member, js_set user member.1 member.2) (map_to_list modify) user.

Definition modify (find modify : option obj) (st : Userbase) : completion bool * Userbase :=
  match find, modify with
  | None, _ => (Throw (Error "No find input specified!"), st)
  | Some _, None => (Throw (Error "No modify input specified!"), st)
  | Some find, Some modify =>
      let users := get (Some find) st in
      if bool_decide (length users = 0%nat) then (Return false, st)
      else
        let heap' := fold_left (λ h user, <[user := assign (default ∅ (h !! user)) modify]> h)
                               users (heap st) in
        (Return true,
         save {| rootFile := rootFile st; data := data st; heap := heap'; fs := fs st |})
  end.

(** ** Sequences of calls *)

(** One call on the store. *)
Inductive op : Type :=
| OpGet (input : option obj)
| OpAdd (input : option fieldspec) (token id : string)
| OpRemove (input : option obj)
| OpModify (find modify : option obj)
| OpSave.

(** The store after a call; a call that throws leaves it as it was. *)
Definition step (o : op) (st : Userbase) : Userbase :=
  match o with
  | OpGet _ => st
  | OpAdd input token id => (add input token id st).2
  | OpRemove input => (remove input st).2
  | OpModify find patch => (modify find patch st).2
  | OpSave => save st
  end.

Definition run (ops : list op) (st : Userbase) : Userbase :=
  fold_left (λ st o, step o st) ops st.

(** ** Predicates the statements use *)

(** Every reference held in [data] points into the heap. *)
Definition valid (st : Userbase) : Prop := ∀ l, l ∈ data st → (l < length (heap st))%nat.

(** No member of the object is [undefined]. *)
Definition json_safe (o : obj) : Prop := ∀ k, o !! k ≠ Some VUndef.

(** The call does not write the key [k] of an existing record: it is not a
    [modify] whose patch has [k]. *)
Definition untouched_by (k : string) (o : op) : Prop :=
  match o with
  | OpModify _ (Some patch) => patch !! k = None
  | _ => True
  end.



(** The store and its root file agree: the file holds the serialization of
    the record sequence, which loses nothing. *)
Definition consistent (st : Userbase) : Prop :=
  rootFile st ≠ ""
  ∧ valid st
  ∧ (∀ l, l ∈ data st → json_safe (deref st l))
  ∧ fs st !! rootFile st = Some (Json (JSON_stringify (heap st) (data st))).

(** The values of the key [k] are pairwise different among the records
    that have a string there. *)
Definition unique_on (k : string) (st : Userbase) : Prop :=
  ∀ l1 l2 v, l1 ∈ data st → l2 ∈ data st →
    deref st l1 !! k = Some (VStr v) → deref st l2 !! k = Some (VStr v) → l1 = l2.

(** The call cannot bring a second record with the same value at [k]: an
    [add] marks [k] as [noDuplicate] wherever it gives it, a [modify] does
    not have [k] in its patch. *)
Definition guards (k : string) (o : op) : Prop :=
  match o with
  | OpAdd (Some input) _ _ => Forall (λ field, field.1 = k → noDuplicate field.2 = true) input
  | OpModify _ (Some patch) => patch !! k = None
  | _ => True
  end.

(** [sub] occurs in [s]. *)
Definition contains (sub s : string) : Prop := ∃ pre post, s = pre +:+ sub +:+ post.

(** The rule check of a field fails. *)
Definition rule_check_fails (field : string * descriptor) : Prop :=
  ∃ r message,
    rules field.2 = Some r ∧ checkRules (value_ field.2) r = Return (Failure message).

(** The rule check of a field passes, or the field has no rules. *)
Definition rules_pass (field : string * descriptor) : Prop :=
  ∀ r, rules field.2 = Some r → checkRules (value_ field.2) r = Return (Success tt).

(** The exception the rule check of a field throws, if it throws. *)
Definition field_throws (field : string * descriptor) : option exn :=
  match rules field.2 with
  | Some r => match checkRules (value_ field.2) r with
              | Throw e => Some e
              | Return _ => None
              end
  | None => None
  end.

(** The field is marked [noDuplicate] and a record of the store already has
    its value at its key. *)
Definition collides (st : Userbase) (field : string * descriptor) : Prop :=
  noDuplicate field.2 = true ∧
  ∃ l, l ∈ data st ∧ js_get (deref st l) field.1 = VStr (value_ field.2).

(** The failure the [forEach] callback records for a field, if any. *)
Definition field_failure (st : Userbase) (field : string * descriptor) : option string :=
  match add_field st (Return (∅, None)) field with
  | Return (_, failed) => failed
  | Throw _ => None
  end.

(** The record built by the loop when a field is skipped on failure. *)
Definition built (st : Userbase) (input : fieldspec) (user : obj) : obj :=
  fold_left (λ user field,
               match field_failure st field with
               | Some _ => user
               | None => js_set user field.1 (VStr (value_ field.2))
               end) input user.

(** The patch as [modify] writes it onto a record: without the key
    [__proto__] when the record has no own member of that name. *)
Definition effective (patch user : obj) : obj :=
  if bool_decide (user !! "__proto__" = None) then delete "__proto__" patch else patch.

(** *** The validator as the specification words it

    Each rule key asks for at most one check: none when the key is absent
    or its value is falsy.  A check is the test of a violation, which for
    [match] throws when the pattern is no regular expression, and the
    message of the failure. *)

Definition minLength_check (value : string) (n : option Z)
    : option (completion bool * string) :=
  match n with
  | None | Some 0 => None
  | Some n => Some (Return (Z.of_nat (String.length value) <? n),
                    "Value must be at least " +:+ num_to_string (Some n)
                      +:+ " characters long!")
  end.

Definition maxLength_check (value : string) (n : option Z)
    : option (completion bool * string) :=
  match n with
  | None | Some 0 => None
  | Some n => Some (Return (n <? Z.of_nat (String.length value)),
                    "Value must be at most " +:+ num_to_string (Some n)
                      +:+ " characters long!")
  end.

(** The pattern is found in the value: it matches from some start index
    on, the first or a later one. *)
Definition found_somewhere (matcher : string → nat → bool) (value : string) : Prop :=
  ∃ i, (i ≤ String.length value)%nat ∧ matcher value i = true.

#[global] Instance found_somewhere_dec matcher value : Decision (found_somewhere matcher value).
Proof.
  refine (cast_if (decide (Exists (λ i, matcher value i = true)
                             (seq 0 (S (String.length value))))));
    unfold found_somewhere; rewrite Exists_exists in *.
  - destruct e as (i & Hi & Hm). apply elem_of_seq in Hi. exists i. split; [lia | done].
  - intros (i & Hi & Hm). apply n. exists i. split; [|done]. apply elem_of_seq. lia.
Defined.

Definition match_check (value : string) (pattern : option string)
    : option (completion bool * string) :=
  match pattern with
  | None | Some EmptyString => None
  | Some p => Some (match RegExp js p with
                    | None => Throw (SyntaxError p)
                    | Some matcher =>
                        Return (negb (bool_decide (found_somewhere matcher value)))
                    end,
                    "Value must match the following regex: " +:+ p)
  end.

Definition flag_check (flag : option bool) (violated : bool) (message : string)
    : option (completion bool * string) :=
  match flag with
  | Some true => Some (Return violated, message)
  | Some false | None => None
  end.

(** The checks a rule set asks for, in the order of the specification. *)
Definition requested_checks (value : string) (rules : RuleSet)
    : list (completion bool * string) :=
  omap id
    [ minLength_check value (minLength rules);
      maxLength_check value (maxLength rules);
      match_check value (match_ rules);
      flag_check (noSpaces rules) (has_char is_space value)
                 "Value must not contain any spaces!";
      flag_check (noSpecialCharacters rules) (has_char is_special value)
                 "Value must not contain any special characters!";
      flag_check (noNumbers rules) (has_char is_digit value)
                 "Value must not contain any numbers!";
      flag_check (noLetters rules) (has_char is_letter value)
                 "Value must not contain any letters!" ].

(** The checks are made in order up to the first that is violated, whose
    failure is returned, or that throws. *)
Fixpoint first_failure (checks : list (completion bool * string))
    : completion (result unit) :=
  match checks with
  | [] => Return (Success tt)
  | (Throw e, _) :: _ => Throw e
  | (Return true, message) :: _ => Return (Failure message)
  | (Return false, _) :: checks => first_failure checks
  end.

(** ** Properties *)

(** *** Objects and matching *)

Lemma fold_found {A : Type} (P : A → bool) (keys : list A) (b : bool) :
  fold_left (λ found key, if P key then false else found) keys b
  = b && forallb (λ key, negb (P key)) keys.
Proof.
  revert b. induction keys as [|k keys IH]; intros b; simpl.
  - by rewrite andb_true_r.
  - rewrite IH. by destruct (P k), b.
Qed.

Lemma elem_of_Object_keys (o : obj) (k : string) :
  k ∈ Object_keys o ↔ is_Some (o !! k).
Proof.
  unfold Object_keys. rewrite list_elem_of_fmap. split.
  - intros [[k' v] [-> Hin]]. apply elem_of_map_to_list in Hin. eauto.
  - intros [v Hv]. exists (k, v). split; [done|]. by apply elem_of_map_to_list.
Qed.

Lemma js_get_Some (o : obj) (k : string) (v : value) :
  o !! k = Some v → js_get o k = v.
Proof. unfold js_get. by intros ->. Qed.

(** A read gives a string exactly when the object has it as an own member. *)
Lemma js_get_string (o : obj) (k s : string) :
  js_get o k = VStr s ↔ o !! k = Some (VStr s).
Proof.
  unfold js_get. destruct (o !! k) as [v|]; [naive_solver|].
  by case_bool_decide.
Qed.

Lemma js_set_lookup (o : obj) (key : string) (v : value) (k : string) :
  js_set o key v !! k =
  if bool_decide (k = key)
  then (if bool_decide (key = "__proto__" ∧ o !! key = None) then None else Some v)
  else o !! k.
Proof.
  unfold js_set.
  destruct (decide (key = "__proto__")) as [Hp|Hp], (decide (o !! key = None)) as [Ho|Ho].
  - rewrite (bool_decide_eq_true_2 (key = "__proto__")) by done.
    rewrite (bool_decide_eq_true_2 (o !! key = None)) by done.
    rewrite (bool_decide_eq_true_2 (_ ∧ _)) by done. simpl.
    case_bool_decide; [by subst | done].
  - rewrite (bool_decide_eq_false_2 (o !! key = None)) by done.
    rewrite (bool_decide_eq_false_2 (_ ∧ _)) by (by intros [_ ?]). rewrite andb_false_r.
    case_bool_decide; subst; [by rewrite lookup_insert_eq | by rewrite lookup_insert_ne].
  - rewrite (bool_decide_eq_false_2 (key = "__proto__")) by done.
    rewrite (bool_decide_eq_false_2 (_ ∧ _)) by (by intros [? _]). simpl.
    case_bool_decide; subst; [by rewrite lookup_insert_eq | by rewrite lookup_insert_ne].
  - rewrite (bool_decide_eq_false_2 (key = "__proto__")) by done.
    rewrite (bool_decide_eq_false_2 (_ ∧ _)) by (by intros [? _]). simpl.
    case_bool_decide; subst; [by rewrite lookup_insert_eq | by rewrite lookup_insert_ne].
Qed.

Lemma js_set_insert (o : obj) (key : string) (v : value) :
  key ≠ "__proto__" → js_set o key v = <[key := v]> o.
Proof. intros Hk. unfold js_set. by rewrite bool_decide_eq_false_2. Qed.

Lemma js_set_lookup_ne (o : obj) (key : string) (v : value) (k : string) :
  k ≠ key → js_set o key v !! k = o !! k.
Proof. intros Hk. rewrite js_set_lookup. by rewrite bool_decide_eq_false_2. Qed.

Lemma matches_spec (user input : obj) :
  matches user input = true ↔ ∀ k (v : value), input !! k = Some v → js_get user k = v.
Proof.
  unfold matches. rewrite fold_found. simpl. rewrite forallb_forall. split.
  - intros H k v Hk.
    assert (Hin : k ∈ Object_keys input) by (apply elem_of_Object_keys; eauto).
    apply list_elem_of_In in Hin. specialize (H k Hin).
    unfold strict_neq in H. rewrite negb_involutive in H.
    apply bool_decide_eq_true in H. by rewrite H, (js_get_Some _ _ _ Hk).
  - intros H k Hin. apply list_elem_of_In, elem_of_Object_keys in Hin as [v Hv].
    unfold strict_neq. rewrite negb_involutive. apply bool_decide_eq_true.
    by rewrite (H k v Hv), (js_get_Some _ _ _ Hv).
Qed.

Lemma matches_empty (user : obj) : matches user ∅ = true.
Proof. apply matches_spec. intros k v Hk. by rewrite lookup_empty in Hk. Qed.

Lemma elem_of_get (st : Userbase) (input : obj) (l : loc) :
  l ∈ get (Some input) st ↔
  l ∈ data st ∧ ∀ k (v : value), input !! k = Some v → js_get (deref st l) k = v.
Proof. simpl. by rewrite list_elem_of_filter, matches_spec, (comm and). Qed.

Lemma get_empty_filter (st : Userbase) : get (Some ∅) st = data st.
Proof.
  simpl. induction (data st) as [|l d IH]; [done|].
  rewrite filter_cons_True by apply matches_empty. by rewrite IH.
Qed.

Lemma get_singleton (st : Userbase) (key : string) (v : value) (l : loc) :
  l ∈ get (Some {[ key := v ]}) st ↔ l ∈ data st ∧ js_get (deref st l) key = v.
Proof.
  rewrite elem_of_get. split; intros [Hl H]; split; try done.
  - apply H. by rewrite lookup_singleton_eq.
  - intros k w Hk. apply lookup_singleton_Some in Hk as [<- <-]. done.
Qed.

(** *** checkRules *)

Lemma regex_search_found (matcher : string → nat → bool) (value : string) :
  regex_search matcher value = bool_decide (found_somewhere matcher value).
Proof.
  apply eq_true_iff_eq. unfold regex_search. rewrite existsb_exists, bool_decide_eq_true.
  unfold found_somewhere. split.
  - intros (i & Hi & Hm). apply list_elem_of_In, elem_of_seq in Hi. exists i.
    split; [lia | done].
  - intros (i & Hi & Hm). exists i. split; [|done].
    apply list_elem_of_In, elem_of_seq. lia.
Qed.

Lemma guard_step (enabled violated : bool) (message : string)
    (rest : completion (result unit))
    (c : option (completion bool * string)) (cs : list (option (completion bool * string))) :
  c = (if enabled then Some (Return violated, message) else None) →
  rest = first_failure (omap id cs) →
  guard (enabled && violated) message rest = first_failure (omap id (c :: cs)).
Proof. intros -> ->. by destruct enabled, violated. Qed.

Lemma match_guard_step (pattern : option string) (value : string)
    (rest : completion (result unit)) (cs : list (option (completion bool * string))) :
  rest = first_failure (omap id cs) →
  match_guard pattern value rest = first_failure (omap id (match_check value pattern :: cs)).
Proof.
  intros ->. unfold match_guard.
  destruct pattern as [[|c p]|]; simpl; try done.
  destruct (RegExp js (String c p)) as [matcher|]; [|done].
  rewrite regex_search_found. unfold guard, fail. by destruct (bool_decide _).
Qed.

Lemma minLength_check_truthy (value : string) (n : option Z) :
  minLength_check value n =
  if truthy_num n
  then Some (Return (Z.of_nat (String.length value) <? default 0 n),
             "Value must be at least " +:+ num_to_string n +:+ " characters long!")
  else None.
Proof. by destruct n as [[|p|p]|]. Qed.

Lemma maxLength_check_truthy (value : string) (n : option Z) :
  maxLength_check value n =
  if truthy_num n
  then Some (Return (Z.of_nat (String.length value) >? default 0 n),
             "Value must be at most " +:+ num_to_string n +:+ " characters long!")
  else None.
Proof. destruct n as [[|p|p]|]; simpl; by rewrite ?Z.gtb_ltb. Qed.

Lemma flag_check_truthy (flag : option bool) (violated : bool) (message : string) :
  flag_check flag violated message =
  if truthy_bool flag then Some (Return violated, message) else None.
Proof. by destruct flag as [[|]|]. Qed.

Lemma guard_success (violated : bool) (message : string) (rest : completion (result unit)) :
  guard violated message rest = Return (Success tt)
  ↔ violated = false ∧ rest = Return (Success tt).
Proof.
  unfold guard, fail.
  destruct violated; [split; [done | by intros [? _]] | split; [done | by intros [_ ?]]].
Qed.

Lemma match_guard_success (pattern : option string) (value : string)
    (rest : completion (result unit)) :
  match_guard pattern value rest = Return (Success tt)
  ↔ (∀ p, pattern = Some p → p ≠ "" →
       ∃ matcher, RegExp js p = Some matcher ∧ found_somewhere matcher value)
    ∧ rest = Return (Success tt).
Proof.
  unfold match_guard. destruct pattern as [p|]; simpl.
  - case_bool_decide as Hp; simpl.
    + split; [|by intros [_ ?]]. intros ->. split; [|done]. intros q Hq. by simplify_eq.
    + destruct (RegExp js p) as [matcher|] eqn:E.
      * rewrite guard_success, negb_false_iff, regex_search_found, bool_decide_eq_true.
        split.
        -- intros [Hf ->]. split; [|done]. intros q Hq _. simplify_eq. eauto.
        -- intros [H ->]. split; [|done].
           destruct (H p eq_refl Hp) as (m & Hm & Hf). by simplify_eq.
      * split; [done|]. intros [H _]. destruct (H p eq_refl Hp) as (m & Hm & _).
        congruence.
  - split; [|by intros [_ ?]]. intros ->. split; [|done]. by intros p.
Qed.

Lemma checkRules_throws (value : string) (rules : RuleSet) (e : exn) :
  checkRules value rules = Throw e →
  ∃ p, match_ rules = Some p ∧ p ≠ "" ∧ RegExp js p = None ∧ e = SyntaxError p.
Proof.
  unfold checkRules, guard, fail.
  repeat (match goal with |- context [if ?b then Return _ else _] => destruct b end;
          [discriminate|]).
  unfold match_guard. destruct (match_ rules) as [p|]; simpl.
  - case_bool_decide as Hp; simpl.
    + repeat (match goal with |- context [if ?b then Return _ else _] => destruct b end;
              [discriminate|]).
      discriminate.
    + destruct (RegExp js p) as [matcher|] eqn:E.
      * unfold guard, fail.
        repeat (match goal with |- context [if ?b then Return _ else _] => destruct b end;
                [discriminate|]).
        discriminate.
      * intros [= <-]. eauto.
  - repeat (match goal with |- context [if ?b then Return _ else _] => destruct b end;
            [discriminate|]).
    discriminate.
Qed.

(** C4, as amended.  [checkRules] makes the checks in the order minLength,
    maxLength, match, noSpaces, noSpecialCharacters, noNumbers, noLetters
    and returns the failure of the first one that is violated, with its
    message; when the match check is reached and its pattern is no
    regular expression, it throws instead, and it throws in no other case.
    A rule key that is absent or falsy asks for no check, so that
    [minLength: 0] gives what a rule set without [minLength] gives.  The
    match check is a search: the pattern may match from any start index of
    the value on. *)
Theorem checkRules_first_failure (value : string) (rules : RuleSet) :
  checkRules value rules = first_failure (requested_checks value rules)
  ∧ checkRules value
      (mkRuleSet (Some 0) (maxLength rules) (match_ rules) (noSpaces rules)
                 (noSpecialCharacters rules) (noNumbers rules) (noLetters rules))
    = checkRules value
      (mkRuleSet None (maxLength rules) (match_ rules) (noSpaces rules)
                 (noSpecialCharacters rules) (noNumbers rules) (noLetters rules))
  ∧ (∀ e, checkRules value rules = Throw e →
       ∃ p, match_ rules = Some p ∧ p ≠ "" ∧ RegExp js p = None ∧ e = SyntaxError p)
  ∧ (∀ p matcher, p ≠ "" → RegExp js p = Some matcher →
       (checkRules value (only_match p) = Return (Success tt)
        ↔ ∃ i, (i ≤ String.length value)%nat ∧ matcher value i = true)).
Proof.
  split_and!; [|reflexivity|apply checkRules_throws|].
  - unfold checkRules, requested_checks.
    apply guard_step; [apply minLength_check_truthy|].
    apply guard_step; [apply maxLength_check_truthy|].
    apply match_guard_step.
    do 4 (apply guard_step; [apply flag_check_truthy|]).
    reflexivity.
  - intros p matcher Hp Hre. unfold checkRules, only_match. simpl.
    rewrite match_guard_success. split.
    + intros [H _]. destruct (H p eq_refl Hp) as (m & Hm & Hf). by simplify_eq.
    + intros Hf. split; [|done]. intros q Hq _. simplify_eq. eauto.
Qed.

Lemma checkRules_message_nonempty (value : string) (rules : RuleSet) (message : string) :
  checkRules value rules = Return (Failure message) → message ≠ "".
Proof.
  unfold checkRules, match_guard, guard, fail.
  repeat (match goal with
          | |- context [if ?b then _ else _] => destruct b
          | |- context [match RegExp js ?p with _ => _ end] => destruct (RegExp js p)
          end; try (intros [= <-]; discriminate); try discriminate).
Qed.

(** *** add: the loop over the fields *)

Arguments get : simpl never.

Lemma duplicate_found (st : Userbase) (key : string) (v : string) :
  (0 <? Z.of_nat (length (get (Some {[ key := VStr v ]}) st))) = true ↔
  ∃ l, l ∈ data st ∧ js_get (deref st l) key = VStr v.
Proof.
  rewrite Z.ltb_lt. split.
  - intros Hlen. destruct (get (Some {[ key := VStr v ]}) st) as [|l users] eqn:E.
    + simpl in Hlen. lia.
    + exists l. apply get_singleton. rewrite E. left.
  - intros [l Hl]. apply get_singleton in Hl.
    destruct (get (Some {[ key := VStr v ]}) st); [inversion Hl | simpl; lia].
Qed.

Lemma add_field_unfold (st : Userbase) (user : obj) (failed : option string)
    (field : string * descriptor) :
  add_field st (Return (user, failed)) field =
  match field_throws field with
  | Some e => Throw e
  | None =>
      match field_failure st field with
      | Some message => Return (user, Some message)
      | None => Return (js_set user field.1 (VStr (value_ field.2)), failed)
      end
  end.
Proof.
  destruct field as [key d]. unfold field_throws, field_failure, add_field. simpl.
  destruct (rules d) as [r|]; [destruct (checkRules (value_ d) r) as [[[]|m]|e]|];
    try done; by destruct (noDuplicate d && _).
Qed.

Lemma add_field_Throw (st : Userbase) (input : fieldspec) (e : exn) :
  fold_left (add_field st) input (Throw e) = Throw e.
Proof. induction input as [|field input IH]; [done | exact IH]. Qed.

Lemma field_failure_no_throw (st : Userbase) (field : string * descriptor) (message : string) :
  field_failure st field = Some message → field_throws field = None.
Proof.
  destruct field as [key d]. unfold field_throws, field_failure, add_field. simpl.
  destruct (rules d) as [r|]; [destruct (checkRules (value_ d) r) as [[[]|m]|e]|]; done.
Qed.

Lemma field_failure_nonempty (st : Userbase) (field : string * descriptor) (message : string) :
  field_failure st field = Some message → message ≠ "".
Proof.
  destruct field as [key d]. unfold field_failure, add_field. simpl.
  destruct (rules d) as [r|]; [destruct (checkRules (value_ d) r) as [[[]|m]|e] eqn:E|].
  - destruct (noDuplicate d && _); [intros [= <-]; discriminate | discriminate].
  - intros [= <-]. by eapply checkRules_message_nonempty.
  - discriminate.
  - destruct (noDuplicate d && _); [intros [= <-]; discriminate | discriminate].
Qed.

Lemma field_failure_rules (st : Userbase) (field : string * descriptor) :
  rule_check_fails field → is_Some (field_failure st field).
Proof.
  destruct field as [key d]. intros (r & m & Hr & Hm). simpl in *.
  unfold field_failure, add_field. simpl. rewrite Hr, Hm. eauto.
Qed.

Lemma field_throws_rules (field : string * descriptor) :
  rule_check_fails field → field_throws field = None.
Proof.
  destruct field as [key d]. intros (r & m & Hr & Hm). simpl in *.
  unfold field_throws. simpl. by rewrite Hr, Hm.
Qed.

Lemma field_throws_pass (field : string * descriptor) :
  rules_pass field → field_throws field = None.
Proof.
  destruct field as [key d]. unfold rules_pass, field_throws. simpl. intros H.
  destruct (rules d) as [r|]; [|done]. by rewrite (H r eq_refl).
Qed.

Lemma field_failure_collides (st : Userbase) (field : string * descriptor) :
  collides st field → field_throws field = None → is_Some (field_failure st field).
Proof.
  destruct field as [key d]. intros [Hd Hl]. simpl in *.
  apply duplicate_found in Hl.
  unfold field_throws, field_failure, add_field. simpl. rewrite Hd, Hl. simpl.
  destruct (rules d) as [r|]; [destruct (checkRules (value_ d) r) as [[[]|m]|e]|];
    try done; eauto.
Qed.

Lemma field_failure_cases (st : Userbase) (field : string * descriptor) (message : string) :
  field_failure st field = Some message →
  (∃ r, rules field.2 = Some r ∧ checkRules (value_ field.2) r = Return (Failure message))
  ∨ (rules_pass field ∧ collides st field
     ∧ message = "A user with this " +:+ field.1 +:+ " already exists!").
Proof.
  destruct field as [key d]. unfold field_failure, add_field, rules_pass, collides. simpl.
  destruct (rules d) as [r|] eqn:Hr;
    [destruct (checkRules (value_ d) r) as [[[]|m]|e] eqn:E|].
  - destruct (noDuplicate d) eqn:Hd; simpl; [|discriminate].
    destruct (0 <? _) eqn:Hl; [|discriminate]. intros [= <-]. right.
    apply duplicate_found in Hl. split_and!; try done. by intros r' [= <-].
  - intros [= <-]. left. eauto.
  - discriminate.
  - destruct (noDuplicate d) eqn:Hd; simpl; [|discriminate].
    destruct (0 <? _) eqn:Hl; [|discriminate]. intros [= <-]. right.
    apply duplicate_found in Hl. split_and!; done.
Qed.

Lemma add_fold (st : Userbase) (input : fieldspec) (user : obj) (failed : option string) :
  fold_left (add_field st) input (Return (user, failed)) =
  match head (omap field_throws input) with
  | Some e => Throw e
  | None =>
      Return (built st input user,
              from_option Some failed (last (omap (field_failure st) input)))
  end.
Proof.
  revert user failed. induction input as [|field input IH]; intros user failed; [done|].
  cbn [fold_left]. rewrite add_field_unfold. unfold built. cbn [fold_left omap list_omap].
  destruct (field_throws field) as [e|] eqn:Et; [by rewrite add_field_Throw|].
  destruct (field_failure st field) as [m|] eqn:E; rewrite IH; [|done].
  destruct (head _); [done|]. do 2 f_equal. rewrite last_cons. by destruct (last _).
Qed.

(** [add] throws what the first field that throws throws; else the message
    it returns is the one of the last field that fails. *)
Lemma add_unfold (st : Userbase) (input : fieldspec) (token id : string) :
  add (Some input) token id st =
  match head (omap field_throws input) with
  | Some e => (Throw e, st)
  | None =>
      match last (omap (field_failure st) input) with
      | Some message => (Return (Failure message), st)
      | None =>
          (Return (Success (length (heap st))),
           save (push (<["id" := VStr id]> (<["token" := VStr token]> (built st input ∅)))
                      st))
      end
  end.
Proof.
  unfold add. rewrite add_fold. destruct (head _); [done|].
  destruct (last _) as [m|] eqn:E; simpl.
  - assert (Hm : m ≠ "").
    { apply last_Some_elem_of, list_elem_of_omap in E as (f & _ & Hf).
      by eapply field_failure_nonempty. }
    by rewrite bool_decide_eq_false_2.
  - by rewrite !js_set_insert.
Qed.

Lemma last_omap_None {A B : Type} (f : A → option B) (l : list A) :
  last (omap f l) = None ↔ Forall (λ x, f x = None) l.
Proof.
  rewrite last_None. induction l as [|x l IH]; simpl.
  - split; [constructor | done].
  - destruct (f x) eqn:E.
    + split; [done|]. intros H. apply Forall_cons in H as [H _]. congruence.
    + rewrite IH. split; [by constructor | by intros [_ ?]%Forall_cons].
Qed.

Lemma head_omap_None {A B : Type} (f : A → option B) (l : list A) :
  head (omap f l) = None ↔ Forall (λ x, f x = None) l.
Proof. by rewrite head_None, <- last_None, last_omap_None. Qed.

Lemma no_throw_of_pass (input : fieldspec) :
  Forall rules_pass input → head (omap field_throws input) = None.
Proof.
  intros H. apply head_omap_None. eapply Forall_impl; [done|].
  intros f. apply field_throws_pass.
Qed.

Lemma add_throws_iff (st : Userbase) (input : fieldspec) (token id : string) :
  (∃ e, (add (Some input) token id st).1 = Throw e) ↔
  Exists (λ field, is_Some (field_throws field)) input.
Proof.
  rewrite add_unfold. destruct (head _) as [e|] eqn:E; simpl.
  - split; [intros _|eauto].
    apply head_Some_elem_of, list_elem_of_omap in E as (f & Hin & Hf).
    apply Exists_exists. eauto.
  - split.
    + intros [e He]. by destruct (last _).
    + intros (f & Hin & [e Hf])%Exists_exists.
      apply head_omap_None in E. rewrite Forall_forall in E.
      rewrite (E f Hin) in Hf. done.
Qed.


Lemma field_failure_None (st : Userbase) (field : string * descriptor) :
  rules_pass field → ¬ collides st field → field_failure st field = None.
Proof.
  intros Hr Hc. destruct (field_failure st field) as [m|] eqn:E; [|done].
  apply field_failure_cases in E as [(r & Hrules & Hfail)|(_ & ? & _)]; [|done].
  by rewrite (Hr r Hrules) in Hfail.
Qed.

Lemma add_fails_iff (st : Userbase) (input : fieldspec) (token id : string) :
  (∃ message, (add (Some input) token id st).1 = Return (Failure message)) ↔
  Forall (λ field, field_throws field = None) input
  ∧ Exists (λ field, is_Some (field_failure st field)) input.
Proof.
  rewrite add_unfold. destruct (head _) as [e|] eqn:Eh; simpl.
  { split; [by intros [m [=]]|]. intros [Hno _].
    apply head_omap_None in Hno. congruence. }
  apply head_omap_None in Eh.
  destruct (last _) as [m|] eqn:E; simpl.
  - split; [intros _|eauto]. split; [done|].
    apply last_Some_elem_of, list_elem_of_omap in E as (f & Hin & Hf).
    apply Exists_exists. eauto.
  - split; [by intros [m [=]]|]. intros [_ (f & Hin & [m Hf])%Exists_exists].
    apply last_omap_None in E. rewrite Forall_forall in E.
    rewrite (E f Hin) in Hf. done.
Qed.

Lemma add_failure_inv (st st' : Userbase) (input : fieldspec) (token id message : string) :
  add (Some input) token id st = (Return (Failure message), st') →
  st' = st ∧ ∃ field, field ∈ input ∧ field_failure st field = Some message.
Proof.
  rewrite add_unfold. destruct (head _); [by intros [=]|].
  destruct (last _) as [m|] eqn:E; [|by intros [=]].
  intros [= -> <-]. split; [done|].
  apply last_Some_elem_of, list_elem_of_omap in E as (f & Hin & Hf). eauto.
Qed.


(** C5.  The loop of [add] does not stop at a field that fails: unless
    the rule check of some field throws, and [add] with it, the message
    returned is the one of the last field that fails, whatever the fields
    before it did.  On a field specification whose two fields both fail
    their rule check, [add] returns the failure of the second. *)
Theorem add_reports_last_failure (token id : string) (st : Userbase) :
  (∀ before field after message,
     field_failure st field = Some message →
     Forall (λ f, field_failure st f = None) after →
     add (Some (before ++ field :: after)) token id st
     = match head (omap field_throws (before ++ after)) with
       | Some e => (Throw e, st)
       | None => (Return (Failure message), st)
       end)
  ∧ add (Some [("a", mkDescriptor "x" false (Some (only_minLength 3)));
               ("b", mkDescriptor "y" false (Some (only_minLength 5)))])
        token id st
    = (Return (Failure "Value must be at least 5 characters long!"), st).
Proof.
  split; [|reflexivity].
  intros before field after message Hfield Hafter.
  rewrite add_unfold, !omap_app. cbn [omap list_omap].
  rewrite Hfield, (field_failure_no_throw _ _ _ Hfield).
  destruct (head _); [done|].
  apply last_omap_None, last_None in Hafter. rewrite Hafter.
  by rewrite last_snoc.
Qed.

(** *** add: the duplicate check *)

Lemma string_app_assoc (a b c : string) : (a +:+ b) +:+ c = a +:+ (b +:+ c).
Proof.
  induction a as [|x a IH]; [done|].
  change (String x ((a +:+ b) +:+ c) = String x (a +:+ b +:+ c)). by rewrite IH.
Qed.

Lemma duplicate_message_contains (key : string) :
  contains "already exists" ("A user with this " +:+ key +:+ " already exists!").
Proof.
  exists ("A user with this " +:+ key +:+ " "), "!".
  rewrite !string_app_assoc. reflexivity.
Qed.

Lemma built_no_failure (st : Userbase) (input : fieldspec) (user : obj) :
  Forall (λ field, field_failure st field = None) input →
  built st input user =
  fold_left (λ user field, js_set user field.1 (VStr (value_ field.2))) input user.
Proof.
  revert user. induction input as [|f input IH]; intros user H; [done|].
  apply Forall_cons in H as [Hf H]. unfold built in *. cbn [fold_left].
  rewrite Hf. by apply IH.
Qed.

Lemma fold_insert_notin (input : fieldspec) (user : obj) (key : string) :
  key ∉ input.*1 →
  fold_left (λ user field, js_set user field.1 (VStr (value_ field.2))) input user !! key
  = user !! key.
Proof.
  revert user. induction input as [|[k d] input IH]; intros user H; [done|].
  rewrite fmap_cons in H. apply not_elem_of_cons in H as [Hne H]. cbn [fold_left].
  rewrite IH by done. by rewrite js_set_lookup_ne.
Qed.

Lemma fold_insert_in (input : fieldspec) (user : obj) (key : string) (d : descriptor) :
  NoDup input.*1 → (key, d) ∈ input → key ≠ "__proto__" →
  fold_left (λ user field, js_set user field.1 (VStr (value_ field.2))) input user !! key
  = Some (VStr (value_ d)).
Proof.
  revert user. induction input as [|[k e] input IH]; intros user Hnd Hin Hproto.
  - inversion Hin.
  - rewrite fmap_cons in Hnd. apply NoDup_cons in Hnd as [Hk Hnd]. cbn [fold_left].
    apply elem_of_cons in Hin as [[= -> ->]|Hin].
    + rewrite fold_insert_notin by done. simpl. rewrite js_set_insert by done.
      by rewrite lookup_insert_eq.
    + by apply IH.
Qed.

(** The loop of [add] gives the record no member [__proto__]. *)
Lemma fold_insert_proto (input : fieldspec) (user : obj) :
  user !! "__proto__" = None →
  fold_left (λ user field, js_set user field.1 (VStr (value_ field.2))) input user
    !! "__proto__" = None.
Proof.
  revert user. induction input as [|[k d] input IH]; intros user Hu; [done|].
  cbn [fold_left]. apply IH. rewrite js_set_lookup. simpl.
  case_bool_decide as Hk; [|done]. subst k. by rewrite bool_decide_eq_true_2.
Qed.

Lemma no_collision_in_empty (st : Userbase) (field : string * descriptor) :
  data st = [] → ¬ collides st field.
Proof. intros Hd (_ & l & Hl & _). rewrite Hd in Hl. inversion Hl. Qed.

(** C3, as amended.  On a field specification all of whose rule checks
    pass, [add] fails exactly when the value of some [noDuplicate] field is
    the value a record of the store, as it is before the call, has at that
    key; the message then contains "already exists" and the store is
    unchanged.  Adding such a specification to an empty store succeeds, and
    adding it again fails with that message and leaves one record, for a
    [noDuplicate] field other than [token], [id] and [__proto__]. *)
Theorem add_noDuplicate (input : fieldspec) (token id : string) (st : Userbase) :
  Forall rules_pass input →
  ((∃ message, (add (Some input) token id st).1 = Return (Failure message))
     ↔ Exists (collides st) input)
  ∧ (∀ message, (add (Some input) token id st).1 = Return (Failure message) →
       contains "already exists" message ∧ (add (Some input) token id st).2 = st)
  ∧ (∀ key d token' id',
       data st = [] → NoDup input.*1 → (key, d) ∈ input → noDuplicate d = true →
       key ≠ "token" → key ≠ "id" → key ≠ "__proto__" →
       ∃ l st1 message,
         add (Some input) token id st = (Return (Success l), st1)
         ∧ add (Some input) token' id' st1 = (Return (Failure message), st1)
         ∧ contains "already exists" message
         ∧ length (data st1) = 1%nat).
Proof.
  intros Hrules. pose proof (no_throw_of_pass input Hrules) as Hnothrow.
  rewrite Forall_forall in Hrules.
  assert (Hmsg : ∀ st0 tk i message,
             (add (Some input) tk i st0).1 = Return (Failure message) →
             contains "already exists" message ∧ (add (Some input) tk i st0).2 = st0).
  { intros st0 tk i m Hm. destruct (add (Some input) tk i st0) as [r st'] eqn:E.
    simpl in Hm. subst r. apply add_failure_inv in E as [-> (f & Hin & Hf)].
    split; [|done].
    apply field_failure_cases in Hf as [(r & Hr & Hfail)|(_ & _ & ->)].
    - by rewrite (Hrules f Hin r Hr) in Hfail.
    - apply duplicate_message_contains. }
  assert (Hiff : ∀ st0 tk i,
             (∃ message, (add (Some input) tk i st0).1 = Return (Failure message))
             ↔ Exists (collides st0) input).
  { intros st0 tk i. rewrite add_fails_iff, !Exists_exists. split.
    - intros [_ (f & Hin & [m Hf])]. exists f. split; [done|].
      apply field_failure_cases in Hf as [(r & Hr & Hfail)|(_ & ? & _)]; [|done].
      by rewrite (Hrules f Hin r Hr) in Hfail.
    - intros (f & Hin & Hc). split; [by apply head_omap_None|].
      exists f. split; [done|]. apply field_failure_collides; [done|].
      apply field_throws_pass. by apply Hrules. }
  split_and!; [apply Hiff | apply Hmsg |].
  intros key d token' id' Hempty Hnd Hin Hdup Htoken Hid Hproto.
  assert (Hnone : Forall (λ field, field_failure st field = None) input).
  { apply Forall_forall. intros f Hf.
    apply field_failure_None; [by apply Hrules | by apply no_collision_in_empty]. }
  pose proof (add_unfold st input token id) as Hadd.
  rewrite Hnothrow, (proj2 (last_omap_None _ _) Hnone) in Hadd.
  set (user := <["id" := VStr id]> (<["token" := VStr token]> (built st input ∅))) in Hadd.
  set (st1 := save (push user st)) in Hadd.
  assert (Hcol : collides st1 (key, d)).
  { split; [done|]. exists (length (heap st)). split.
    - simpl. rewrite Hempty. left.
    - unfold deref. simpl. rewrite list_lookup_middle by done. simpl.
      apply js_get_Some. unfold user.
      rewrite !lookup_insert_ne by done.
      rewrite built_no_failure by done. by apply fold_insert_in. }
  destruct (proj2 (Hiff st1 token' id')) as [m Hm].
  { apply Exists_exists. eauto. }
  exists (length (heap st)), st1, m. split_and!.
  - done.
  - destruct (Hmsg _ _ _ _ Hm) as [_ Hst].
    destruct (add (Some input) token' id' st1) as [r st2]. simpl in *. by subst.
  - by destruct (Hmsg _ _ _ _ Hm).
  - simpl. by rewrite Hempty.
Qed.

(** *** get *)

(** C2, as amended.  [get()] returns the record sequence itself.  [get]
    with a filter returns, in the order of the sequence, exactly the
    records whose value at every key of the filter is strictly equal to the
    filter's, where the value of a record at a key it lacks is [undefined],
    or what [Object.prototype] has at that key when it has the key; so a
    record has every key the filter gives a string for, with that string,
    and a record lacking a key of the filter does not match unless the
    filter's value there is [undefined] and the key is not one of
    [Object.prototype].  A call of [get] leaves the store as it is, so that
    the same call made again returns the same. *)
Theorem get_spec (st : Userbase) (input : obj) :
  get None st = data st
  ∧ get (Some input) st
    = filter (λ l, map_Forall (λ k v, js_get (deref st l) k = Scalar v) input) (data st)
  ∧ (∀ l k s, l ∈ get (Some input) st → input !! k = Some (VStr s) →
       deref st l !! k = Some (VStr s))
  ∧ (∀ l k v, input !! k = Some v → deref st l !! k = None →
       v ≠ VUndef ∨ k ∈ Object_prototype_keys →
       l ∉ get (Some input) st)
  ∧ (∀ l k, l ∈ get (Some input) st → input !! k = Some VUndef →
       deref st l !! k = Some VUndef
       ∨ (deref st l !! k = None ∧ k ∉ Object_prototype_keys))
  ∧ (∀ input', get (Some input) (step (OpGet input') st) = get (Some input) st).
Proof.
  split_and!; [| | | | |done].
  - done.
  - unfold get. apply list_filter_iff. intros l. apply matches_spec.
  - intros l k s [_ H]%elem_of_get Hk. specialize (H k _ Hk).
    by apply js_get_string.
  - intros l k v Hk Hnone Hv [_ H]%elem_of_get. specialize (H k _ Hk).
    unfold js_get in H. rewrite Hnone in H. case_bool_decide; [done|].
    destruct Hv; congruence.
  - intros l k [_ H]%elem_of_get Hk. specialize (H k _ Hk).
    unfold js_get in H. destruct (deref st l !! k) as [w|]; [left; congruence|].
    case_bool_decide; [done|]. by right.
Qed.

(** *** remove *)

Lemma indexOf_from_first (l1 l2 : list loc) (x : loc) (i : Z) :
  x ∉ l1 → indexOf_from (l1 ++ x :: l2) x i = i + Z.of_nat (length l1).
Proof.
  revert i. induction l1 as [|y l1 IH]; intros i Hx; simpl.
  - rewrite decide_True by done. lia.
  - apply not_elem_of_cons in Hx as [Hne Hx].
    rewrite decide_False by done. rewrite IH by done. lia.
Qed.

Lemma indexOf_first (l1 l2 : list loc) (x : loc) :
  x ∉ l1 → indexOf (l1 ++ x :: l2) x = Z.of_nat (length l1).
Proof. intros Hx. unfold indexOf. rewrite indexOf_from_first by done. lia. Qed.

Lemma splice_one {A : Type} (l1 l2 : list A) (x : A) :
  splice (l1 ++ x :: l2) (Z.of_nat (length l1)) 1 = l1 ++ l2.
Proof.
  unfold splice. rewrite length_app. simpl.
  destruct (Z.ltb_spec (Z.of_nat (length l1)) 0) as [?|_]; [lia|].
  rewrite Z.min_l by lia. rewrite Z.max_l by lia. rewrite Z.min_l by lia.
  rewrite Nat2Z.id.
  replace (Z.to_nat (Z.of_nat (length l1) + 1)) with (S (length l1)) by lia.
  rewrite take_app_length. f_equal.
  rewrite (cons_middle x l1 l2), app_assoc.
  apply drop_app_length'. rewrite length_app. simpl. lia.
Qed.

Lemma filter_none {A : Type} (P : A → Prop) `{∀ x, Decision (P x)} (l : list A) :
  filter P l = [] → filter (λ x, ¬ P x) l = l.
Proof.
  induction l as [|x l IH]; [done|]. destruct (decide (P x)).
  - by rewrite filter_cons_True.
  - rewrite filter_cons_False by done. intros Hl.
    rewrite filter_cons_True by done. by rewrite IH.
Qed.

Lemma filter_all_out {A : Type} (P : A → Prop) `{∀ x, Decision (P x)} (l : list A) :
  (∀ x, P x) → filter (λ x, ¬ P x) l = [].
Proof.
  intros HP. induction l as [|x l IH]; [done|].
  rewrite filter_cons_False; [done|]. intros Hn. apply Hn, HP.
Qed.

(** The loop of [remove] takes out every occurrence of the selected
    references and nothing else. *)
Lemma remove_loop (P : loc → Prop) `{∀ x, Decision (P x)} (users d : list loc) :
  users ≡ₚ filter P d →
  fold_left (λ d user, splice d (indexOf d user) 1) users d = filter (λ x, ¬ P x) d.
Proof.
  revert d. induction users as [|u users IH]; intros d Hp.
  - symmetry. apply filter_none. symmetry in Hp. by apply Permutation_nil_r in Hp.
  - assert (Hu : u ∈ filter P d) by (rewrite <- Hp; left).
    apply list_elem_of_filter in Hu as [HPu Hu].
    apply list_elem_of_split_l in Hu as (l1 & l2 & -> & Hnotin).
    cbn [fold_left]. rewrite indexOf_first by done. rewrite splice_one.
    rewrite filter_app, filter_cons_True in Hp by done.
    apply Permutation_cons_app_inv in Hp. rewrite <- filter_app in Hp.
    rewrite (IH _ Hp). rewrite !filter_app. f_equal.
    rewrite filter_cons_False; [done|]. by intros Hn.
Qed.

Lemma length_filter_complement {A : Type} (P : A → Prop) `{∀ x, Decision (P x)}
    (l : list A) :
  (length (filter (λ x, ¬ P x) l) + length (filter P l) = length l)%nat.
Proof.
  pose proof (Permutation_length (filter_app_complement P l)) as Hlen.
  rewrite length_app in Hlen. lia.
Qed.

(** C7, as amended.  [remove] throws when the filter is absent, and only
    then.  With a filter that selects no record it returns [false] and the
    store is unchanged.  With a filter that selects N records it takes
    those N references out of the sequence, each once, keeps the others in
    order, saves, and returns [true]. *)
Theorem remove_spec (input : obj) (st : Userbase) :
  remove None st = (Throw (Error "No input specified!"), st)
  ∧ (∃ r st', remove (Some input) st = (Return r, st'))
  ∧ (get (Some input) st = [] → remove (Some input) st = (Return false, st))
  ∧ (get (Some input) st ≠ [] →
       ∃ st', remove (Some input) st = (Return true, st')
         ∧ data st' = filter (λ l, ¬ matches (deref st l) input = true) (data st)
         ∧ (∀ l, l ∈ data st' ↔ l ∈ data st ∧ l ∉ get (Some input) st)
         ∧ (length (data st') + length (get (Some input) st) = length (data st))%nat
         ∧ heap st' = heap st
         ∧ rootFile st' = rootFile st
         ∧ fs st' = <[rootFile st := Json (JSON_stringify (heap st) (data st'))]> (fs st)).
Proof.
  assert (Hloop : fold_left (λ d user, splice d (indexOf d user) 1)
                    (get (Some input) st) (data st)
                  = filter (λ l, ¬ matches (deref st l) input = true) (data st)).
  { by apply (remove_loop (λ l, matches (deref st l) input = true)). }
  split_and!.
  - done.
  - unfold remove. case_bool_decide; eauto.
  - intros Hg. unfold remove. by rewrite Hg.
  - intros Hg. unfold remove. rewrite bool_decide_eq_false_2.
    2:{ by destruct (get (Some input) st). }
    eexists. split; [done|]. simpl. rewrite !Hloop. split_and!; try done.
    + intros l. unfold get. rewrite !list_elem_of_filter. tauto.
    + apply length_filter_complement.
Qed.

(** *** modify *)

Lemma assign_members (members : list (string * value)) (user : obj) (k : string) :
  NoDup members.*1 →
  fold_left (λ user member, js_set user member.1 member.2) members user !! k
  = match (list_to_map members : obj) !! k with
    | Some v =>
        if bool_decide (k = "__proto__" ∧ user !! "__proto__" = None) then None else Some v
    | None => user !! k
    end.
Proof.
  revert user. induction members as [|[key v] members IH]; intros user Hnd; cbn [fold_left].
  - done.
  - rewrite fmap_cons in Hnd. apply NoDup_cons in Hnd as [Hkey Hnd].
    rewrite IH by done. simpl. destruct (decide (k = key)) as [->|Hne].
    + rewrite lookup_insert_eq.
      rewrite (not_elem_of_list_to_map_1 (M := gmap string)) by done.
      rewrite js_set_lookup, bool_decide_eq_true_2 by done.
      destruct (decide (key = "__proto__")) as [->|Hp]; [done|].
      by rewrite !bool_decide_eq_false_2 by (by intros [? _]).
    + rewrite lookup_insert_ne by done.
      destruct (list_to_map members !! k) as [w|]; [|by rewrite js_set_lookup_ne].
      destruct (decide (k = "__proto__")) as [->|Hp].
      * by rewrite js_set_lookup_ne by done.
      * by rewrite !bool_decide_eq_false_2 by (by intros [? _]).
Qed.

(** The inner loop of [modify] overwrites the keys of the patch, [__proto__]
    only on a record that has a member of that name, and keeps the other
    members. *)
Lemma assign_union (user modify : obj) : assign user modify = effective modify user ∪ user.
Proof.
  apply map_eq. intros k. unfold assign.
  rewrite assign_members by apply NoDup_fst_map_to_list.
  rewrite list_to_map_to_list, lookup_union. unfold effective.
  destruct (decide (user !! "__proto__" = None)) as [Hu|Hu].
  - rewrite (bool_decide_eq_true_2 (user !! "__proto__" = None)) by done.
    destruct (decide (k = "__proto__")) as [->|Hk].
    + rewrite lookup_delete_eq, Hu. destruct (modify !! "__proto__"); [|done].
      by rewrite bool_decide_eq_true_2.
    + rewrite lookup_delete_ne by done. destruct (modify !! k) as [v|].
      * rewrite bool_decide_eq_false_2 by (by intros [? _]). by destruct (user !! k).
      * by destruct (user !! k).
  - rewrite (bool_decide_eq_false_2 (user !! "__proto__" = None)) by done.
    destruct (modify !! k) as [v|].
    + rewrite bool_decide_eq_false_2 by (by intros [_ ?]). by destruct (user !! k).
    + by destruct (user !! k).
Qed.

Lemma effective_lookup_None (p o : obj) (k : string) :
  p !! k = None → effective p o !! k = None.
Proof.
  intros Hk. unfold effective. case_bool_decide; [|done].
  destruct (decide (k = "__proto__")) as [->|Hne].
  - apply lookup_delete_eq.
  - by rewrite lookup_delete_ne.
Qed.

Lemma effective_lookup (p o : obj) (k : string) :
  k ≠ "__proto__" ∨ o !! "__proto__" ≠ None → effective p o !! k = p !! k.
Proof.
  intros Hk. unfold effective. case_bool_decide as Ho; [|done].
  destruct Hk as [Hk|Hk]; [|done]. by rewrite lookup_delete_ne.
Qed.

Lemma effective_proto (p o : obj) :
  o !! "__proto__" = None → (effective p o ∪ o) !! "__proto__" = None.
Proof.
  intros Ho. unfold effective. rewrite bool_decide_eq_true_2 by done.
  by rewrite lookup_union, lookup_delete_eq, Ho.
Qed.

Lemma effective_full (p o : obj) : p !! "__proto__" = None → effective p o = p.
Proof.
  intros Hp. unfold effective. case_bool_decide; [|done]. by apply delete_id.
Qed.

Lemma union_twice (p o : obj) : p ∪ (p ∪ o) = p ∪ o.
Proof.
  apply map_eq. intros k. rewrite !lookup_union.
  by destruct (p !! k), (o !! k).
Qed.

(** Patching a record a second time changes nothing. *)
Lemma effective_twice (p o : obj) :
  effective p (effective p o ∪ o) ∪ (effective p o ∪ o) = effective p o ∪ o.
Proof.
  assert (Hsame : effective p (effective p o ∪ o) = effective p o).
  { unfold effective at 1 3. destruct (decide (o !! "__proto__" = None)) as [Ho|Ho].
    - rewrite (bool_decide_eq_true_2 (o !! "__proto__" = None)) by done.
      by rewrite bool_decide_eq_true_2 by (by apply effective_proto).
    - rewrite (bool_decide_eq_false_2 (o !! "__proto__" = None)) by done.
      rewrite bool_decide_eq_false_2; [done|].
      rewrite lookup_union. destruct (o !! "__proto__"); [|done].
      by destruct (effective p o !! "__proto__"). }
  rewrite Hsame. apply union_twice.
Qed.

(** The outer loop of [modify] patches the objects of the selected
    references and no other. *)
Lemma modify_loop (users : list loc) (p : obj) (h : list obj) (l : loc) :
  fold_left (λ h user, <[user := assign (default ∅ (h !! user)) p]> h) users h !! l
  = if decide (l ∈ users) then (λ o, effective p o ∪ o) <$> (h !! l) else h !! l.
Proof.
  revert h. induction users as [|u users IH]; intros h; cbn [fold_left].
  - by rewrite decide_False by (by intros ?%elem_of_nil).
  - rewrite IH, assign_union, list_lookup_insert.
    destruct (decide (l = u)) as [->|Hne].
    + rewrite (decide_True (P := u ∈ u :: users)) by left.
      destruct (h !! u) as [o|] eqn:Ho.
      * rewrite (decide_True (P := u = u ∧ (u < length h)%nat))
          by (split; [done | by eapply lookup_lt_Some]).
        simpl. rewrite effective_twice. by destruct (decide (u ∈ users)).
      * rewrite (decide_False (P := u = u ∧ (u < length h)%nat)).
        2:{ intros [_ Hlt]. apply lookup_lt_is_Some in Hlt as [? ?]. congruence. }
        by destruct (decide (u ∈ users)).
    + rewrite (decide_False (P := u = l ∧ (u < length h)%nat)) by (by intros [? _]).
      destruct (decide (l ∈ users)) as [Hin|Hnotin].
      * by rewrite decide_True by (by right).
      * by rewrite decide_False by (by intros [?|?]%elem_of_cons).
Qed.

Lemma modify_loop_length (users : list loc) (p : obj) (h : list obj) :
  length (fold_left (λ h user, <[user := assign (default ∅ (h !! user)) p]> h) users h)
  = length h.
Proof.
  revert h. induction users as [|u users IH]; intros h; cbn [fold_left]; [done|].
  by rewrite IH, length_insert.
Qed.

Lemma modify_selected (find patch : obj) (st : Userbase) (l : loc) :
  valid st → l ∈ get (Some find) st →
  deref (modify (Some find) (Some patch) st).2 l
  = effective patch (deref st l) ∪ deref st l.
Proof.
  intros Hvalid Hl. unfold modify. rewrite bool_decide_eq_false_2.
  2:{ destruct (get (Some find) st); [inversion Hl | done]. }
  unfold deref. simpl. rewrite modify_loop, decide_True by done.
  assert (Hd : l ∈ data st) by (by apply elem_of_get in Hl as [? _]).
  apply Hvalid, lookup_lt_is_Some in Hd as [o Ho]. by rewrite Ho.
Qed.

(** C8, as amended.  [modify] throws when the filter or the patch is
    absent.  With a filter that selects no record it returns [false] and
    the store is unchanged.  Otherwise it returns [true]; every selected
    record then has the patch's value at every key of the patch, whatever
    the value, except that the key [__proto__] is written only on a record
    that has a member of that name; its other members are as before; the
    other objects and the sequence are unchanged; the file holds the
    sequence as it is after these updates; and [get] on the patch returns
    every record that was selected, unless the patch has the key [__proto__]
    and the record no member of that name: such a record it does not
    return. *)
Theorem modify_spec (find patch : obj) (st : Userbase) :
  valid st →
  modify None (Some patch) st = (Throw (Error "No find input specified!"), st)
  ∧ modify None None st = (Throw (Error "No find input specified!"), st)
  ∧ modify (Some find) None st = (Throw (Error "No modify input specified!"), st)
  ∧ (get (Some find) st = [] → modify (Some find) (Some patch) st = (Return false, st))
  ∧ (get (Some find) st ≠ [] →
       ∃ st', modify (Some find) (Some patch) st = (Return true, st')
         ∧ data st' = data st
         ∧ rootFile st' = rootFile st
         ∧ (∀ l k v, l ∈ get (Some find) st → patch !! k = Some v →
              k ≠ "__proto__" ∨ deref st l !! "__proto__" ≠ None →
              deref st' l !! k = Some v)
         ∧ (∀ l, l ∈ get (Some find) st → deref st l !! "__proto__" = None →
              deref st' l !! "__proto__" = None)
         ∧ (∀ l k, l ∈ get (Some find) st → patch !! k = None →
              deref st' l !! k = deref st l !! k)
         ∧ (∀ l, l ∉ get (Some find) st → deref st' l = deref st l)
         ∧ fs st' = <[rootFile st := Json (JSON_stringify (heap st') (data st'))]> (fs st)
         ∧ (∀ l, l ∈ get (Some find) st →
              patch !! "__proto__" = None ∨ deref st l !! "__proto__" ≠ None →
              l ∈ get (Some patch) st')
         ∧ (∀ l, l ∈ get (Some find) st →
              is_Some (patch !! "__proto__") → deref st l !! "__proto__" = None →
              l ∉ get (Some patch) st')).
Proof.
  intros Hvalid. split_and!; try done.
  - intros Hg. unfold modify. by rewrite Hg.
  - intros Hg.
    assert (Hsel : ∀ l, l ∈ get (Some find) st →
              deref (modify (Some find) (Some patch) st).2 l
              = effective patch (deref st l) ∪ deref st l).
    { intros l Hl. by apply modify_selected. }
    unfold modify in *. rewrite bool_decide_eq_false_2 in *.
    2,3: by destruct (get (Some find) st).
    eexists. split; [done|]. simpl in Hsel.
    split_and!; try done.
    + intros l k v Hl Hk Hp. rewrite (Hsel l Hl). apply lookup_union_Some_l.
      by rewrite effective_lookup.
    + intros l Hl Hp. rewrite (Hsel l Hl). by apply effective_proto.
    + intros l k Hl Hk. rewrite (Hsel l Hl). apply lookup_union_r.
      by apply effective_lookup_None.
    + intros l Hl. unfold deref. simpl. by rewrite modify_loop, decide_False.
    + intros l Hl Hp. apply elem_of_get. split.
      * by apply elem_of_get in Hl as [? _].
      * intros k v Hk. rewrite (Hsel l Hl). apply js_get_Some.
        apply lookup_union_Some_l. rewrite effective_lookup; [done|].
        destruct Hp as [Hp|Hp]; [|by right]. left. intros ->. congruence.
    + intros l Hl [v Hv] Hp [_ H]%elem_of_get. specialize (H _ _ Hv).
      rewrite (Hsel l Hl) in H. unfold js_get in H.
      by rewrite effective_proto in H.
Qed.

(** C10, as amended.  An empty object as filter selects every record:
    [get] returns the whole sequence; [remove] empties a store that holds
    records, saves and returns [true]; [modify] patches every record of
    such a store, each with the keys of the patch that [modify] writes on
    it, which are all of them but [__proto__] on a record without a member
    of that name.  On a store that holds no record both return [false].
    The guards of [remove] and [modify] throw on an absent argument only. *)
Theorem empty_filter_selects_all (patch : obj) (st : Userbase) :
  get (Some ∅) st = data st
  ∧ (data st ≠ [] →
       ∃ st', remove (Some ∅) st = (Return true, st')
         ∧ data st' = []
         ∧ fs st' = <[rootFile st := Json []]> (fs st))
  ∧ (data st ≠ [] → valid st →
       ∃ st', modify (Some ∅) (Some patch) st = (Return true, st')
         ∧ data st' = data st
         ∧ (∀ l, l ∈ data st →
              deref st' l = effective patch (deref st l) ∪ deref st l)
         ∧ (patch !! "__proto__" = None →
              ∀ l, l ∈ data st → deref st' l = patch ∪ deref st l))
  ∧ (data st = [] →
       remove (Some ∅) st = (Return false, st)
       ∧ modify (Some ∅) (Some patch) st = (Return false, st))
  ∧ remove None st = (Throw (Error "No input specified!"), st)
  ∧ modify None (Some patch) st = (Throw (Error "No find input specified!"), st)
  ∧ modify (Some ∅) None st = (Throw (Error "No modify input specified!"), st).
Proof.
  split_and!; try done.
  - apply get_empty_filter.
  - intros Hd. unfold remove. rewrite get_empty_filter.
    rewrite bool_decide_eq_false_2 by (by destruct (data st)).
    eexists. split; [done|].
    assert (Hloop : fold_left (λ d user, splice d (indexOf d user) 1) (data st) (data st) = []).
    { rewrite (remove_loop (λ l, matches (deref st l) ∅ = true)).
      - apply (filter_all_out (λ l, matches (deref st l) ∅ = true)).
        intros l. apply matches_empty.
      - by rewrite <- get_empty_filter at 1. }
    simpl. by rewrite !Hloop.
  - intros Hd Hvalid.
    assert (Hsel : ∀ l, l ∈ data st →
              deref (modify (Some ∅) (Some patch) st).2 l
              = effective patch (deref st l) ∪ deref st l).
    { intros l Hl. apply modify_selected; [done|]. by rewrite get_empty_filter. }
    unfold modify in *. rewrite get_empty_filter in *.
    rewrite bool_decide_eq_false_2 in * by (by destruct (data st)).
    eexists. split; [done|]. split; [done|]. simpl in Hsel. split; [done|].
    intros Hp l Hl. by rewrite (Hsel l Hl), effective_full.
  - intros Hd. unfold remove, modify. by rewrite get_empty_filter, Hd.
Qed.

(** *** Sequences of calls: what a record keeps *)

Lemma step_heap_length (o : op) (st : Userbase) :
  (length (heap st) ≤ length (heap (step o st)))%nat.
Proof.
  destruct o as [input|[input|] token id|[input|]|[find|] [patch|]|]; unfold step; try done.
  - rewrite add_unfold. destruct (head _); [done|].
    destruct (last _); simpl; [done|]. rewrite length_app. lia.
  - unfold remove. by case_bool_decide.
  - unfold modify. case_bool_decide; simpl; [done|]. by rewrite modify_loop_length.
Qed.

Lemma step_untouched (k : string) (o : op) (st : Userbase) (l : loc) :
  (l < length (heap st))%nat → untouched_by k o →
  deref (step o st) l !! k = deref st l !! k.
Proof.
  intros Hl Hk.
  destruct o as [input|[input|] token id|[input|]|[find|] [patch|]|]; unfold step; try done.
  - rewrite add_unfold. destruct (head _); [done|]. destruct (last _); simpl; [done|].
    unfold deref. simpl. by rewrite lookup_app_l.
  - unfold remove. by case_bool_decide.
  - unfold modify. case_bool_decide; simpl; [done|].
    unfold deref. simpl. rewrite modify_loop.
    destruct (decide (l ∈ get (Some find) st)); [|done].
    apply lookup_lt_is_Some in Hl as [o Ho]. rewrite Ho. simpl.
    apply lookup_union_r. by apply effective_lookup_None.
Qed.

Lemma run_untouched (k : string) (ops : list op) (st : Userbase) (l : loc) :
  (l < length (heap st))%nat → Forall (untouched_by k) ops →
  deref (run ops st) l !! k = deref st l !! k.
Proof.
  revert st. induction ops as [|o ops IH]; intros st Hl Hops; [done|].
  apply Forall_cons in Hops as [Ho Hops]. unfold run in *. cbn [fold_left].
  rewrite IH; [by apply step_untouched | | done].
  eapply Nat.lt_le_trans; [done | apply step_heap_length].
Qed.

(** C6, as amended.  Through every sequence of calls in which no [modify]
    has [id] or [token] among the keys of its patch, an existing record
    keeps its [id] and its [token].  A [modify] overwrites every key of its
    patch other than [__proto__] on the records it selects, [id] and [token]
    as any other. *)
Theorem id_token_kept (ops : list op) (st : Userbase) (l : loc) :
  (l < length (heap st))%nat →
  (Forall (untouched_by "id") ops →
     deref (run ops st) l !! "id" = deref st l !! "id")
  ∧ (Forall (untouched_by "token") ops →
     deref (run ops st) l !! "token" = deref st l !! "token")
  ∧ (∀ find patch k v,
       valid st → l ∈ get (Some find) st → patch !! k = Some v → k ≠ "__proto__" →
       deref (step (OpModify (Some find) (Some patch)) st) l !! k = Some v).
Proof.
  intros Hl. split_and!.
  - by apply run_untouched.
  - by apply run_untouched.
  - intros find patch k v Hvalid Hsel Hk Hp. unfold step.
    rewrite modify_selected by done. apply lookup_union_Some_l.
    rewrite effective_lookup; [done | by left].
Qed.

(** *** The root file and the record sequence *)

Lemma stringify_parse (o : gmap string string) : stringify_obj (parse_obj o) = o.
Proof.
  apply map_eq. intros k. unfold stringify_obj, parse_obj.
  rewrite lookup_omap, lookup_fmap. by destruct (o !! k).
Qed.

Lemma stringify_parse_list (doc : list (gmap string string)) :
  stringify_obj <$> (parse_obj <$> doc) = doc.
Proof.
  induction doc as [|o doc IH]; [done|].
  rewrite !fmap_cons, stringify_parse. by f_equal.
Qed.


Lemma fmap_seq_lookup {A B : Type} (f : A → B) (d : A) (l : list A) :
  (λ i, f (default d (l !! i))) <$> seq 0 (length l) = f <$> l.
Proof.
  apply list_eq. intros i. rewrite !list_lookup_fmap.
  destruct (decide (i < length l)%nat) as [Hlt|Hge].
  - rewrite lookup_seq_lt by done. simpl.
    apply lookup_lt_is_Some in Hlt as [x Hx]. by rewrite Hx.
  - rewrite lookup_seq_ge by lia. by rewrite lookup_ge_None_2 by lia.
Qed.

Lemma seq_lookup_default {A : Type} (d : A) (l : list A) :
  (λ i, default d (l !! i)) <$> seq 0 (length l) = l.
Proof.
  etrans; [apply (fmap_seq_lookup id d l) | apply list_fmap_id].
Qed.

Lemma json_safe_empty : json_safe ∅.
Proof. intros k. by rewrite lookup_empty. Qed.





Lemma json_safe_parse (o : gmap string string) : json_safe (parse_obj o).
Proof. intros k. unfold parse_obj. rewrite lookup_fmap. by destruct (o !! k). Qed.



Lemma constructor_consistent (path : string) (files : gmap string content)
    (st : Userbase) :
  constructor path files = Return st → consistent st ∧ rootFile st = path.
Proof.
  unfold constructor. case_bool_decide as Hroot; [done|].
  destruct (_ !! path) as [[e|doc]|] eqn:Hfile; try done.
  intros [= <-]. split; [|done]. split_and!; simpl; try done.
  - intros l Hl. simpl in *. apply elem_of_seq in Hl.
    unfold JSON_parse. rewrite length_fmap. lia.
  - intros l _. unfold deref, JSON_parse. simpl. rewrite list_lookup_fmap.
    destruct (doc !! l); simpl; [apply json_safe_parse | apply json_safe_empty].
  - rewrite Hfile. do 2 f_equal. unfold JSON_stringify, JSON_parse.
    rewrite <- (length_fmap parse_obj doc).
    rewrite (fmap_seq_lookup stringify_obj ∅ (parse_obj <$> doc)).
    by rewrite stringify_parse_list.
Qed.

Lemma remove_unfold (input : obj) (st : Userbase) :
  remove (Some input) st =
  if bool_decide (length (get (Some input) st) = 0%nat) then (Return false, st)
  else (Return true,
        save {| rootFile := rootFile st;
                data := filter (λ l, ¬ matches (deref st l) input = true) (data st);
                heap := heap st; fs := fs st |}).
Proof.
  unfold remove. case_bool_decide; [done|].
  by rewrite (remove_loop (λ l, matches (deref st l) input = true)).
Qed.





(** *** References stay valid *)

Lemma constructor_valid (path : string) (files : gmap string content) (st : Userbase) :
  constructor path files = Return st → valid st.
Proof. intros H. by apply constructor_consistent in H as [(_ & ? & _) _]. Qed.

Lemma step_valid (o : op) (st : Userbase) : valid st → valid (step o st).
Proof.
  intros Hvalid.
  destruct o as [input|[input|] token id|[input|]|[find|] [patch|]|]; unfold step;
    try done.
  - rewrite add_unfold. destruct (head _); [done|]. destruct (last _); [done|].
    intros l [Hl| ->%list_elem_of_singleton]%elem_of_app; simpl; rewrite length_app; simpl.
    + apply Hvalid in Hl. lia.
    + lia.
  - rewrite remove_unfold. case_bool_decide; [done|].
    intros l [_ Hl]%list_elem_of_filter. by apply Hvalid.
  - unfold modify. case_bool_decide; [done|].
    intros l Hl. simpl. rewrite modify_loop_length. by apply Hvalid.
Qed.

(** *** checkRules: when a value passes *)

Lemma has_char_false (class : Ascii.ascii → bool) (value : string) :
  has_char class value = false ↔
  Forall (λ c, class c = false) (String.list_ascii_of_string value).
Proof.
  unfold has_char. induction (String.list_ascii_of_string value) as [|c l IH]; simpl.
  - split; [constructor | done].
  - rewrite orb_false_iff, IH, Forall_cons. done.
Qed.

(** X1.  [checkRules] succeeds exactly when the value meets every rule the
    rule set asks for: its length is not below a non-zero [minLength] nor
    above a non-zero [maxLength], a non-empty [match] pattern is a regular
    expression that is found in it, and it has no character of a class
    whose flag is set. *)
Theorem checkRules_success_iff (value : string) (rules : RuleSet) :
  checkRules value rules = Return (Success tt) ↔
    (∀ n, minLength rules = Some n → n ≠ 0 → n ≤ Z.of_nat (String.length value))
    ∧ (∀ n, maxLength rules = Some n → n ≠ 0 → Z.of_nat (String.length value) ≤ n)
    ∧ (∀ p, match_ rules = Some p → p ≠ "" →
         ∃ matcher, RegExp js p = Some matcher ∧ regex_search matcher value = true)
    ∧ (noSpaces rules = Some true → has_char is_space value = false)
    ∧ (noSpecialCharacters rules = Some true → has_char is_special value = false)
    ∧ (noNumbers rules = Some true → has_char is_digit value = false)
    ∧ (noLetters rules = Some true → has_char is_letter value = false).
Proof.
  unfold checkRules. rewrite !guard_success, match_guard_success, !guard_success.
  assert (Hnum : ∀ (o : option Z) (test : Z → bool),
            truthy_num o && test (default 0 o) = false ↔
            ∀ n, o = Some n → n ≠ 0 → test n = false).
  { intros [n|] test; simpl.
    - destruct (Z.eqb_spec n 0) as [->|Hn]; simpl.
      + split; [intros _ n Hn; by simplify_eq | done].
      + split; [intros H m Hm; by simplify_eq | intros H; by apply H].
    - split; [by intros _ n | done]. }
  assert (Hflag : ∀ (o : option bool) (b : bool),
            truthy_bool o && b = false ↔ (o = Some true → b = false)).
  { intros [[|]|] b; simpl;
      (split; [intros H1 H2; by simplify_eq | intros H1; first [by apply H1 | done]]). }
  rewrite (Hnum (minLength rules) (λ n, Z.of_nat (String.length value) <? n)).
  rewrite (Hnum (maxLength rules) (λ n, Z.of_nat (String.length value) >? n)).
  rewrite !Hflag.
  assert (Hmatch :
            (∀ p, match_ rules = Some p → p ≠ "" →
               ∃ matcher, RegExp js p = Some matcher ∧ found_somewhere matcher value)
            ↔ (∀ p, match_ rules = Some p → p ≠ "" →
                 ∃ matcher, RegExp js p = Some matcher
                            ∧ regex_search matcher value = true)).
  { split; intros H p Hp Hne; destruct (H p Hp Hne) as (matcher & Hm & Hf);
      exists matcher; (split; [done|]);
      by rewrite regex_search_found, bool_decide_eq_true in *. }
  rewrite Hmatch.
  split.
  - intros (Hmin & Hmax & Hm & Hs & Hsp & Hn & Hl & _). split_and!; try done.
    + intros n Hn' Hz. specialize (Hmin n Hn' Hz). simpl in Hmin. lia.
    + intros n Hn' Hz. specialize (Hmax n Hn' Hz). simpl in Hmax. lia.
  - intros (Hmin & Hmax & Hm & Hs & Hsp & Hn & Hl). split_and!; try done.
    + intros n Hn' Hz. specialize (Hmin n Hn' Hz). simpl. lia.
    + intros n Hn' Hz. specialize (Hmax n Hn' Hz). simpl. lia.
Qed.

Lemma alnum_not_space (c : Ascii.ascii) :
  is_letter c || is_digit c = true → is_space c = false.
Proof.
  destruct c as [[] [] [] [] [] [] [] []]; vm_compute; intros H;
    first [reflexivity | discriminate H].
Qed.

(** X2.  A value that passes a rule set with [noSpecialCharacters] is made
    of letters and digits only, so it has no white space either; if
    [noNumbers] and [noLetters] are set as well, only the empty string
    passes. *)
Theorem checkRules_character_flags (value : string) (rules : RuleSet) :
  checkRules value rules = Return (Success tt) →
  noSpecialCharacters rules = Some true →
  Forall (λ c, is_letter c || is_digit c = true) (String.list_ascii_of_string value)
  ∧ has_char is_space value = false
  ∧ (noNumbers rules = Some true → noLetters rules = Some true → value = "").
Proof.
  intros Hok Hflag. unfold checkRules in Hok.
  rewrite !guard_success, match_guard_success, !guard_success in Hok.
  destruct Hok as (_ & _ & _ & _ & Hsp & Hn & Hl & _).
  rewrite Hflag in Hsp. simpl in Hsp. apply has_char_false in Hsp.
  assert (Halnum : Forall (λ c, is_letter c || is_digit c = true)
                     (String.list_ascii_of_string value)).
  { eapply Forall_impl; [done|]. intros c Hc. unfold is_special in Hc.
    by apply negb_false_iff in Hc. }
  split_and!.
  - done.
  - apply has_char_false. eapply Forall_impl; [exact Halnum|].
    apply alnum_not_space.
  - intros Hnum Hlet. rewrite Hnum in Hn. rewrite Hlet in Hl. simpl in *.
    apply has_char_false in Hn, Hl.
    destruct value as [|c value]; [done|]. exfalso. simpl in *.
    apply Forall_cons in Halnum as [Hc _], Hn as [Hd _], Hl as [Hlt _].
    rewrite Hd, Hlt in Hc. done.
Qed.

(** X3.  Rule sets no value passes: a negative [maxLength], or a non-zero
    [minLength] above a non-zero [maxLength]. *)
Theorem checkRules_length_conflict (value : string) (rules : RuleSet) (m : Z) :
  maxLength rules = Some m → m ≠ 0 →
  (m < 0 ∨ ∃ n, minLength rules = Some n ∧ n ≠ 0 ∧ m < n) →
  ∃ message, checkRules value rules = Return (Failure message).
Proof.
  intros Hmax Hm Hcase. unfold checkRules.
  unfold guard at 1. destruct (truthy_num (minLength rules) && _) eqn:Hmin; [eauto|].
  unfold guard at 1. destruct (truthy_num (maxLength rules) && _) eqn:Hmx; [eauto|].
  exfalso. rewrite Hmax in Hmx. simpl in Hmx.
  apply andb_false_iff in Hmx as [Hmx|Hmx].
  { apply negb_false_iff, Z.eqb_eq in Hmx. done. }
  rewrite Z.gtb_ltb in Hmx. apply Z.ltb_ge in Hmx.
  destruct Hcase as [Hneg|(n & Hn & Hnz & Hlt)]; [lia|].
  rewrite Hn in Hmin. simpl in Hmin.
  apply andb_false_iff in Hmin as [Hmin|Hmin].
  { apply negb_false_iff, Z.eqb_eq in Hmin. done. }
  apply Z.ltb_ge in Hmin. lia.
Qed.

(** *** generateToken, generateID *)

Lemma hex_digits_of_byte (b : Byte.byte) :
  is_hex_lower (hex_digit (Byte.to_N b / 16)) = true
  ∧ is_hex_lower (hex_digit (Byte.to_N b mod 16)) = true.
Proof. destruct b; split; vm_compute; reflexivity. Qed.

Lemma toString_hex_length (buffer : list Byte.byte) :
  String.length (toString_hex buffer) = (2 * length buffer)%nat.
Proof. induction buffer as [|b buffer IH]; simpl; [done | rewrite IH; lia]. Qed.

Lemma toString_hex_chars (buffer : list Byte.byte) :
  Forall (λ c, is_hex_lower c = true) (String.list_ascii_of_string (toString_hex buffer)).
Proof.
  induction buffer as [|b buffer IH]; simpl; [constructor|].
  destruct (hex_digits_of_byte b). by repeat constructor.
Qed.

Lemma byte_of_hex_digits (b : Byte.byte) :
  let value := λ c, (if is_digit c then code c - 48 else code c - 87)%N in
  Byte.of_N (16 * value (hex_digit (Byte.to_N b / 16))
             + value (hex_digit (Byte.to_N b mod 16))) = Some b.
Proof. destruct b; vm_compute; reflexivity. Qed.

Lemma toString_hex_inj (buffer1 buffer2 : list Byte.byte) :
  toString_hex buffer1 = toString_hex buffer2 → buffer1 = buffer2.
Proof.
  revert buffer2. induction buffer1 as [|b1 buffer1 IH]; intros [|b2 buffer2]; simpl;
    try done.
  intros [= Hhi Hlo Hrest]. f_equal; [|by apply IH].
  pose proof (byte_of_hex_digits b1) as H1. pose proof (byte_of_hex_digits b2) as H2.
  simpl in H1, H2. rewrite Hhi, Hlo in H1. congruence.
Qed.

Lemma hex_lower_not_special (c : Ascii.ascii) :
  is_hex_lower c = true → is_special c = false.
Proof.
  destruct c as [[] [] [] [] [] [] [] []]; vm_compute; intros H;
    first [reflexivity | discriminate H].
Qed.

(** X4.  A token is 128 and an id 32 characters long, all of them digits
    or letters from [a] to [f], so neither has a character that
    [noSpecialCharacters] rejects; and different random bytes give
    different tokens and ids. *)
Theorem token_and_id_are_hex (bytes64 bytes16 : list Byte.byte) :
  length bytes64 = 64%nat → length bytes16 = 16%nat →
  String.length (generateToken bytes64) = 128%nat
  ∧ String.length (generateID bytes16) = 32%nat
  ∧ Forall (λ c, is_hex_lower c = true)
      (String.list_ascii_of_string (generateToken bytes64))
  ∧ Forall (λ c, is_hex_lower c = true)
      (String.list_ascii_of_string (generateID bytes16))
  ∧ has_char is_special (generateToken bytes64) = false
  ∧ has_char is_special (generateID bytes16) = false
  ∧ (∀ other, generateToken other = generateToken bytes64 → other = bytes64)
  ∧ (∀ other, generateID other = generateID bytes16 → other = bytes16).
Proof.
  intros H64 H16. unfold generateToken, generateID.
  rewrite !toString_hex_length, H64, H16.
  split_and!; try done; try apply toString_hex_chars;
    try (intros other; apply toString_hex_inj).
  - apply has_char_false. eapply Forall_impl; [apply toString_hex_chars|].
    apply hex_lower_not_special.
  - apply has_char_false. eapply Forall_impl; [apply toString_hex_chars|].
    apply hex_lower_not_special.
Qed.

(** *** The statement [this.data.splice(this.data.indexOf(user), 1)] *)

Lemma indexOf_from_absent (d : list loc) (user : loc) (i : Z) :
  user ∉ d → indexOf_from d user i = -1.
Proof.
  revert i. induction d as [|y d IH]; intros i Hx; simpl; [done|].
  apply not_elem_of_cons in Hx as [Hne Hx]. rewrite decide_False by done. by apply IH.
Qed.

(** X5.  [data.splice(data.indexOf(user), 1)] takes the first occurrence
    of [user] out of [data] when there is one.  When there is none,
    [indexOf] gives [-1] and [splice] counts it from the end: the last
    element is taken out instead. *)
Theorem splice_indexOf (d : list loc) (user : loc) :
  (user ∈ d → ∃ d1 d2, d = d1 ++ (user :: d2) ∧ (user ∉ d1)
                 ∧ splice d (indexOf d user) 1 = d1 ++ d2)
  ∧ (user ∉ d → indexOf d user = (-1)
                 ∧ splice d (indexOf d user) 1 = take (length d - 1) d).
Proof.
  split.
  - intros Hin. apply list_elem_of_split_l in Hin as (d1 & d2 & -> & Hnotin).
    exists d1, d2. split_and!; try done.
    rewrite indexOf_first by done. apply splice_one.
  - intros Hnotin. unfold indexOf. rewrite indexOf_from_absent by done.
    split; [done|]. unfold splice.
    destruct d as [|x d]; [done|].
    change (-1 <? 0) with true. cbn [negb].
    cbv zeta. rewrite Z.max_l by (simpl length; lia).
    rewrite (Z.max_l 1) by lia.
    rewrite Z.min_l by lia.
    replace (Z.to_nat (Z.of_nat (length (x :: d)) + -1)) with (length (x :: d) - 1)%nat by lia.
    replace (Z.to_nat (Z.of_nat (length (x :: d)) + -1 + 1)) with (length (x :: d)) by lia.
    rewrite drop_all. by rewrite app_nil_r.
Qed.

(** *** Userbase.constructor *)

Lemma string_app_nil_r (s : string) : s +:+ "" = s.
Proof.
  induction s as [|c s IH]; [done|].
  change (String c (s +:+ "") = String c s). by rewrite IH.
Qed.

(** X6.  The constructor throws on an empty path, and on a root file that
    does not parse, with a message that has the path and the parser's
    complaint.  It creates a missing root file holding the empty array and
    starts without records.  It leaves an existing root file as it is and
    loads one record for each element of its array, in order, no two of
    them the same object. *)
Theorem constructor_outcome (path : string) (files : gmap string content) :
  (path = "" → constructor path files = Throw (Error "No root file specified!"))
  ∧ (∀ e, path ≠ "" → files !! path = Some (Garbage e) →
       ∃ message, constructor path files = Throw (Error message)
         ∧ contains path message ∧ contains e message)
  ∧ (path ≠ "" → files !! path = None →
       constructor path files
       = Return {| rootFile := path; data := []; heap := [];
                   fs := <[path := Json []]> files |})
  ∧ (∀ doc, path ≠ "" → files !! path = Some (Json doc) →
       ∃ st, constructor path files = Return st
         ∧ rootFile st = path ∧ fs st = files
         ∧ records st = parse_obj <$> doc
         ∧ NoDup (data st)).
Proof.
  unfold constructor. split_and!.
  - intros ->. done.
  - intros e Hpath Hfile. rewrite bool_decide_eq_false_2 by done.
    rewrite bool_decide_eq_true_2 by (by rewrite Hfile). rewrite Hfile.
    eexists. split; [done|]. split.
    + exists ("Invalid JSON stored in root file! (" +:+ e +:+ "): "), "".
      by rewrite string_app_nil_r, !string_app_assoc.
    + exists "Invalid JSON stored in root file! (", ("): " +:+ path). done.
  - intros Hpath Hfile. rewrite bool_decide_eq_false_2 by done.
    rewrite bool_decide_eq_false_2 by (rewrite Hfile; by intros [? ?]).
    by rewrite lookup_insert_eq.
  - intros doc Hpath Hfile. rewrite bool_decide_eq_false_2 by done.
    rewrite bool_decide_eq_true_2 by (by rewrite Hfile). rewrite Hfile.
    eexists. split; [done|]. split_and!; try done.
    + unfold records, deref. simpl. unfold JSON_parse.
      rewrite <- (length_fmap parse_obj doc). apply seq_lookup_default.
    + apply NoDup_seq.
Qed.

(** *** What every call keeps *)

Lemma step_data_heap_fs (o : op) (st : Userbase) :
  rootFile (step o st) = rootFile st
  ∧ (∀ p, p ≠ rootFile st → fs (step o st) !! p = fs st !! p).
Proof.
  destruct o as [input|[input|] token id|[input|]|[find|] [patch|]|]; unfold step;
    try done.
  - rewrite add_unfold. destruct (head _); [done|]. destruct (last _); [done|]. split; [done|].
    intros p Hp. simpl. by rewrite lookup_insert_ne.
  - rewrite remove_unfold. case_bool_decide; [done|]. split; [done|].
    intros p Hp. simpl. by rewrite lookup_insert_ne.
  - unfold modify. case_bool_decide; [done|]. split; [done|].
    intros p Hp. simpl. by rewrite lookup_insert_ne.
  - split; [done|]. intros p Hp. simpl. by rewrite lookup_insert_ne.
Qed.

(** X7.  No sequence of calls changes the root file's path or any file
    other than the root file. *)
Theorem other_files_untouched (ops : list op) (st : Userbase) :
  rootFile (run ops st) = rootFile st
  ∧ (∀ p, p ≠ rootFile st → fs (run ops st) !! p = fs st !! p).
Proof.
  revert st. induction ops as [|o ops IH]; intros st; [done|].
  unfold run in *. cbn [fold_left].
  destruct (IH (step o st)) as [Hr Hf]. destruct (step_data_heap_fs o st) as [Hr' Hf'].
  split; [congruence|]. intros p Hp. rewrite Hf by congruence. by apply Hf'.
Qed.

Lemma step_NoDup (o : op) (st : Userbase) :
  valid st → NoDup (data st) → NoDup (data (step o st)).
Proof.
  intros Hvalid Hnd.
  destruct o as [input|[input|] token id|[input|]|[find|] [patch|]|]; unfold step;
    try done.
  - rewrite add_unfold. destruct (head _); [done|]. destruct (last _); [done|]. simpl.
    apply NoDup_app. split_and!; [done| |apply NoDup_singleton].
    intros l Hl ->%list_elem_of_singleton. apply Hvalid in Hl. lia.
  - rewrite remove_unfold. case_bool_decide; [done|]. simpl. by apply NoDup_filter.
  - unfold modify. by case_bool_decide.
Qed.

(** X8.  From the constructor on, through every sequence of calls, the
    record sequence never holds the same object twice and never holds a
    reference to an object that does not exist; so [get] never returns a
    record twice. *)
Theorem records_are_distinct (path : string) (files : gmap string content)
    (ops : list op) (st : Userbase) (input : option obj) :
  constructor path files = Return st →
  NoDup (data (run ops st)) ∧ valid (run ops st) ∧ NoDup (get input (run ops st)).
Proof.
  intros Hopen.
  assert (H0 : NoDup (data st) ∧ valid st).
  { split; [|by eapply constructor_valid].
    unfold constructor in Hopen. case_bool_decide; [done|].
    destruct (_ !! path) as [[e|doc]|]; try done.
    injection Hopen as <-. apply NoDup_seq. }
  clear Hopen.
  assert (H : NoDup (data (run ops st)) ∧ valid (run ops st)).
  { revert st H0. induction ops as [|o ops IH]; intros st [Hnd Hvalid]; [done|].
    unfold run in *. cbn [fold_left]. apply IH.
    split; [by apply step_NoDup | by apply step_valid]. }
  destruct H as [Hnd Hvalid]. split_and!; try done.
  destruct input as [input|]; [|done]. unfold get. by apply NoDup_filter.
Qed.


Lemma run_whole_object (ops : list op) (st : Userbase) (l : loc) :
  (l < length (heap st))%nat →
  Forall (λ o, ∀ k, untouched_by k o) ops →
  deref (run ops st) l = deref st l.
Proof.
  intros Hl Hops. apply map_eq. intros k. apply run_untouched; [done|].
  eapply Forall_impl; [done|]. intros o Ho. apply Ho.
Qed.

(** X10.  Only [modify] writes to an existing record: through a sequence
    of calls a record keeps its value at every key that no [modify] of the
    sequence has in its patch, and keeps all its members when the sequence
    has no [modify] with a key in its patch at all. *)
Theorem only_modify_writes (k : string) (ops : list op) (st : Userbase) (l : loc) :
  (l < length (heap st))%nat →
  (Forall (untouched_by k) ops → deref (run ops st) l !! k = deref st l !! k)
  ∧ (Forall (λ o, ∀ k, untouched_by k o) ops → deref (run ops st) l = deref st l).
Proof.
  intros Hl. split; [by apply run_untouched | by apply run_whole_object].
Qed.

(** *** add: when it succeeds *)

Lemma filter_ext_in {A : Type} (P Q : A → Prop) `{∀ x, Decision (P x)}
    `{∀ x, Decision (Q x)} (l : list A) :
  (∀ x, x ∈ l → P x ↔ Q x) → filter P l = filter Q l.
Proof.
  induction l as [|x l IH]; intros Hext; [done|].
  rewrite !filter_cons. rewrite IH by (intros y Hy; apply Hext; by right).
  destruct (decide (P x)) as [HP|HP], (decide (Q x)) as [HQ|HQ]; try done.
  - exfalso. apply HQ, Hext; [left | done].
  - exfalso. apply HP, Hext; [left | done].
Qed.

Lemma filter_all_in {A : Type} (P : A → Prop) `{∀ x, Decision (P x)} (l : list A) :
  (∀ x, x ∈ l → P x) → filter P l = l.
Proof.
  induction l as [|x l IH]; intros HP; [done|].
  rewrite filter_cons_True by (apply HP; left).
  rewrite IH; [done|]. intros y Hy. apply HP. by right.
Qed.

Lemma add_Success_inv (input : fieldspec) (token id : string) (st st' : Userbase) (l : loc) :
  add (Some input) token id st = (Return (Success l), st') →
  l = length (heap st)
  ∧ st' = save (push (<["id" := VStr id]> (<["token" := VStr token]> (built st input ∅))) st)
  ∧ Forall (λ field, field_failure st field = None) input.
Proof.
  rewrite add_unfold. destruct (head _); [done|].
  destruct (last _) as [m|] eqn:E; [by intros [=]|].
  intros [= <- <-]. split_and!; try done. by apply last_omap_None.
Qed.

Lemma built_lookup_inv (st : Userbase) (input : fieldspec) (user : obj)
    (k : string) (x : value) :
  built st input user !! k = Some x →
  user !! k = Some x
  ∨ ∃ d, (k, d) ∈ input ∧ field_failure st (k, d) = None ∧ x = VStr (value_ d).
Proof.
  revert user. unfold built.
  induction input as [|[key d] input IH]; intros user; cbn [fold_left]; [by left|].
  intros H. apply IH in H as [H|(d' & Hin & Hf & ->)].
  - destruct (field_failure st (key, d)) eqn:E; [by left|]. simpl in H.
    rewrite js_set_lookup in H. case_bool_decide as Hk; [|by left]. subst k.
    case_bool_decide; [done|]. injection H as <-.
    right. exists d. split_and!; [left | done | done].
  - right. exists d'. split_and!; [by right | done | done].
Qed.

(** X11.  Given an object, [add] throws exactly when the rule check of
    some field throws.  It returns a failure exactly when none throws and
    the rule check of some field fails or the value of some [noDuplicate]
    field is already in the store.  It returns success exactly when every
    rule check passes and no such value is in the store.  Whether it
    throws or fails, and with what, does not depend on the token and the id
    generated, which are not compared with those in the store; the record
    it returns on success carries them. *)
Theorem add_outcome (input : fieldspec) (token id : string) (st : Userbase) :
  ((∃ e, (add (Some input) token id st).1 = Throw e)
     ↔ Exists (λ field, is_Some (field_throws field)) input)
  ∧ ((∃ message, (add (Some input) token id st).1 = Return (Failure message))
     ↔ Forall (λ field, field_throws field = None) input
       ∧ Exists (λ field, rule_check_fails field ∨ collides st field) input)
  ∧ ((∃ l, (add (Some input) token id st).1 = Return (Success l))
     ↔ Forall (λ field, rules_pass field ∧ ¬ collides st field) input)
  ∧ (∀ token' id' e, (add (Some input) token' id' st).1 = Throw e
                     ↔ (add (Some input) token id st).1 = Throw e)
  ∧ (∀ token' id' message,
       (add (Some input) token' id' st).1 = Return (Failure message)
       ↔ (add (Some input) token id st).1 = Return (Failure message))
  ∧ (∀ l st', add (Some input) token id st = (Return (Success l), st') →
       deref st' l !! "token" = Some (VStr token)
       ∧ deref st' l !! "id" = Some (VStr id)).
Proof.
  assert (Hfail : ∀ field, field_throws field = None →
                    (is_Some (field_failure st field)
                     ↔ rule_check_fails field ∨ collides st field)).
  { intros field Hno. split.
    - intros [m Hm]. apply field_failure_cases in Hm as [(r & Hr & Hf)|(_ & Hc & _)].
      + left. by exists r, m.
      + by right.
    - intros [H|H]; [by apply field_failure_rules | by apply field_failure_collides]. }
  assert (Hnone : ∀ field, field_throws field = None ∧ field_failure st field = None
                           ↔ rules_pass field ∧ ¬ collides st field).
  { intros field. split.
    - intros [Hno Hf]. split.
      + intros r Hr. destruct (checkRules (value_ field.2) r) as [[[]|m]|e] eqn:E; [done| |].
        * assert (Hs : is_Some (field_failure st field)).
          { apply field_failure_rules. by exists r, m. }
          rewrite Hf in Hs. by destruct Hs.
        * unfold field_throws in Hno. by rewrite Hr, E in Hno.
      + intros Hc. apply field_failure_collides in Hc; [|done].
        rewrite Hf in Hc. by destruct Hc.
    - intros [Hr Hc]. split; [by apply field_throws_pass | by apply field_failure_None]. }
  split_and!.
  - apply add_throws_iff.
  - rewrite add_fails_iff, !Exists_exists. split.
    + intros [Hno (f & Hin & Hf)]. split; [done|]. exists f. split; [done|].
      apply Hfail; [|done]. rewrite Forall_forall in Hno. by apply Hno.
    + intros [Hno (f & Hin & Hf)]. split; [done|]. exists f. split; [done|].
      apply Hfail; [|done]. rewrite Forall_forall in Hno. by apply Hno.
  - rewrite add_unfold. destruct (head _) as [e|] eqn:Eh; simpl.
    { split; [by intros [l [=]]|]. intros Hall. exfalso.
      apply head_Some_elem_of, list_elem_of_omap in Eh as (f & Hin & Hf).
      rewrite Forall_forall in Hall. apply Hall, Hnone in Hin as [Hin _]. congruence. }
    apply head_omap_None in Eh.
    destruct (last _) as [m|] eqn:E; simpl.
    + split; [by intros [l [=]]|]. intros Hall. exfalso.
      apply last_Some_elem_of, list_elem_of_omap in E as (f & Hin & Hf).
      rewrite Forall_forall in Hall. apply Hall, Hnone in Hin as [_ Hin]. congruence.
    + split; [intros _ | eauto]. apply last_omap_None in E.
      rewrite Forall_forall in Eh, E. apply Forall_forall. intros f Hf.
      apply Hnone. split; [by apply Eh | by apply E].
  - intros token' id' e. rewrite !add_unfold. destruct (head _); [done|].
    by destruct (last _).
  - intros token' id' message. rewrite !add_unfold. destruct (head _); [done|].
    by destruct (last _).
  - intros l st'. rewrite add_unfold. destruct (head _); [done|].
    destruct (last _); [done|]. intros [= <- <-]. unfold deref. simpl.
    rewrite list_lookup_middle by done. simpl.
    rewrite lookup_insert_ne by done. by rewrite !lookup_insert_eq.
Qed.

(** X12.  A successful [add] appends one new object to the sequence and
    changes no record that was there.  The new record has the generated
    token and id, also when the field specification has fields of these
    names; it has the value of every other field of the specification but
    one named [__proto__], which is not stored, and no member besides.  The
    root file then holds the new sequence. *)
Theorem add_success (input : fieldspec) (token id : string) (st st' : Userbase) (l : loc) :
  valid st →
  add (Some input) token id st = (Return (Success l), st') →
  l = length (heap st)
  ∧ (l ∉ data st)
  ∧ data st' = data st ++ [l]
  ∧ (∀ l', l' ∈ data st → deref st' l' = deref st l')
  ∧ deref st' l !! "token" = Some (VStr token)
  ∧ deref st' l !! "id" = Some (VStr id)
  ∧ (∀ key d, NoDup input.*1 → (key, d) ∈ input →
       key ≠ "token" → key ≠ "id" → key ≠ "__proto__" →
       deref st' l !! key = Some (VStr (value_ d)))
  ∧ deref st' l !! "__proto__" = None
  ∧ (∀ key, key ∉ input.*1 → key ≠ "token" → key ≠ "id" → deref st' l !! key = None)
  ∧ rootFile st' = rootFile st
  ∧ fs st' = <[rootFile st := Json (JSON_stringify (heap st') (data st'))]> (fs st).
Proof.
  intros Hvalid Hadd. apply add_Success_inv in Hadd as (-> & -> & Hnone).
  assert (Hnew : deref (save (push (<["id" := VStr id]>
                    (<["token" := VStr token]> (built st input ∅))) st)) (length (heap st))
                 = <["id" := VStr id]> (<["token" := VStr token]> (built st input ∅))).
  { unfold deref. simpl. by rewrite list_lookup_middle. }
  split_and!; try done.
  - intros Hl. apply Hvalid in Hl. lia.
  - intros l' Hl'. unfold deref. simpl. by rewrite lookup_app_l by (by apply Hvalid).
  - rewrite Hnew. rewrite lookup_insert_ne by done. by rewrite lookup_insert_eq.
  - rewrite Hnew. by rewrite lookup_insert_eq.
  - intros key d Hnd Hin Htoken Hid Hproto. rewrite Hnew.
    rewrite !lookup_insert_ne by done. rewrite built_no_failure by done.
    by apply fold_insert_in.
  - rewrite Hnew. rewrite !lookup_insert_ne by done. rewrite built_no_failure by done.
    by apply fold_insert_proto.
  - intros key Hkey Htoken Hid. rewrite Hnew.
    rewrite !lookup_insert_ne by done. rewrite built_no_failure by done.
    by rewrite fold_insert_notin.
Qed.

Lemma get_after_add (input : fieldspec) (token id : string) (st st' : Userbase)
    (l : loc) (query : obj) :
  valid st →
  add (Some input) token id st = (Return (Success l), st') →
  get (Some query) st'
  = get (Some query) st ++ (if matches (deref st' l) query then [l] else []).
Proof.
  intros Hvalid Hadd. remember (matches (deref st' l) query) as m eqn:Em.
  apply add_Success_inv in Hadd as (-> & -> & _).
  unfold get. cbn [data save push]. rewrite filter_app. f_equal.
  - apply filter_ext_in. intros l' Hl'. unfold deref. simpl.
    by rewrite lookup_app_l by (by apply Hvalid).
  - rewrite filter_cons, filter_nil. rewrite <- Em.
    destruct m; [by rewrite decide_True | by rewrite decide_False].
Qed.

(** X13.  After a successful [add], [get] with any filter returns what it
    returned before, followed by the new record when it matches; the new
    record is found by its id, and by the value of each field of the
    specification other than [token], [id] and [__proto__]; it is not found
    by the value of a field named [__proto__]. *)
Theorem get_after_add_finds (input : fieldspec) (token id : string) (st st' : Userbase)
    (l : loc) :
  valid st →
  add (Some input) token id st = (Return (Success l), st') →
  (∀ query, get (Some query) st'
            = get (Some query) st ++ (if matches (deref st' l) query then [l] else []))
  ∧ get None st' = get None st ++ [l]
  ∧ l ∈ get (Some {[ "id" := VStr id ]}) st'
  ∧ (∀ key d, NoDup input.*1 → (key, d) ∈ input →
       key ≠ "token" → key ≠ "id" → key ≠ "__proto__" →
       l ∈ get (Some {[ key := VStr (value_ d) ]}) st')
  ∧ (∀ v, l ∉ get (Some {[ "__proto__" := v ]}) st').
Proof.
  intros Hvalid Hadd.
  assert (Hin : l ∈ data st').
  { apply add_Success_inv in Hadd as (-> & -> & _). simpl.
    apply elem_of_app. right. left. }
  pose proof (add_Success_inv _ _ _ _ _ _ Hadd) as (Hl & Hst & Hnone).
  assert (Hnew : deref st' l
                 = <["id" := VStr id]> (<["token" := VStr token]> (built st input ∅))).
  { subst l st'. unfold deref. simpl. by rewrite list_lookup_middle. }
  split_and!.
  - intros query. by eapply get_after_add.
  - rewrite Hst, Hl. reflexivity.
  - apply get_singleton. split; [done|]. apply js_get_Some.
    rewrite Hnew. by rewrite lookup_insert_eq.
  - intros key d Hnd Hkd Htoken Hid Hproto. apply get_singleton. split; [done|].
    apply js_get_Some. rewrite Hnew. rewrite !lookup_insert_ne by done.
    rewrite built_no_failure by done. by apply fold_insert_in.
  - intros v [_ Hv]%get_singleton. unfold js_get in Hv. rewrite Hnew in Hv.
    rewrite !lookup_insert_ne in Hv by done. rewrite built_no_failure in Hv by done.
    by rewrite fold_insert_proto in Hv.
Qed.

(** X14.  Adding a record and then removing it by its id, when no record
    of the store had that id, gives back the sequence and the records the
    store had, and [remove] returns [true]. *)
Theorem remove_after_add (input : fieldspec) (token id : string) (st st' : Userbase)
    (l : loc) :
  valid st →
  (∀ l', l' ∈ data st → js_get (deref st l') "id" ≠ VStr id) →
  add (Some input) token id st = (Return (Success l), st') →
  (remove (Some {[ "id" := VStr id ]}) st').1 = Return true
  ∧ data (remove (Some {[ "id" := VStr id ]}) st').2 = data st
  ∧ records (remove (Some {[ "id" := VStr id ]}) st').2 = records st.
Proof.
  intros Hvalid Hfresh Hadd.
  pose proof (add_Success_inv _ _ _ _ _ _ Hadd) as (Hl & Hst & _).
  set (q := ({[ "id" := VStr id ]} : obj)).
  assert (Hdata : data st' = data st ++ [l]) by (by subst).
  assert (Hold : ∀ l', l' ∈ data st → deref st' l' = deref st l').
  { intros l' Hl'. subst st'. unfold deref. simpl.
    by rewrite lookup_app_l by (by apply Hvalid). }
  assert (Hnew : matches (deref st' l) q = true).
  { apply matches_spec. intros k v [<- <-]%lookup_singleton_Some.
    apply js_get_Some. subst l st'. unfold deref. simpl.
    rewrite list_lookup_middle by done. simpl. by rewrite lookup_insert_eq. }
  assert (Hno : ∀ l', l' ∈ data st → ¬ matches (deref st' l') q = true).
  { intros l' Hl' Hm. rewrite Hold in Hm by done.
    apply (Hfresh l' Hl'). eapply matches_spec; [done|]. apply lookup_singleton_eq. }
  assert (Hfilter : filter (λ l0, ¬ matches (deref st' l0) q = true) (data st') = data st).
  { rewrite Hdata, filter_app, filter_cons_False, filter_nil, app_nil_r
      by (intros Hn; by apply Hn).
    by apply filter_all_in. }
  rewrite remove_unfold. rewrite bool_decide_eq_false_2.
  2:{ intros Hlen. assert (Hin : l ∈ get (Some q) st').
      { unfold get. apply list_elem_of_filter. split; [done|].
        rewrite Hdata. apply elem_of_app. right. left. }
      destruct (get (Some q) st'); [inversion Hin | simpl in Hlen; lia]. }
  split_and!; [done | exact Hfilter |].
  unfold records. cbn [snd data save]. rewrite Hfilter.
  apply list_fmap_ext. intros i l' Hl'.
  apply (Hold l'). by eapply list_elem_of_lookup_2.
Qed.

(** *** get and remove together *)

(** X15.  A filter selects a sublist of the whole sequence, and a filter
    that has the entries of another and more selects a sublist of what the
    other selects. *)
Theorem get_narrows (input input' : obj) (st : Userbase) :
  get (Some input) st `sublist_of` get None st
  ∧ (input ⊆ input' → get (Some input') st `sublist_of` get (Some input) st).
Proof.
  split; [apply sublist_filter|].
  intros Hsub. unfold get.
  assert (Heq : filter (λ user, matches (deref st user) input' = true) (data st)
              = filter (λ user, matches (deref st user) input' = true)
                  (filter (λ user, matches (deref st user) input = true) (data st))).
  { rewrite list_filter_filter. apply list_filter_iff. intros l. split; [|by intros [? _]].
    intros Hm. split; [done|]. apply matches_spec. intros k v Hk.
    eapply matches_spec; [done|]. eapply map_subseteq_spec; done. }
  rewrite Heq. apply sublist_filter.
Qed.

(** X16.  After [remove] with a filter, [get] with that filter finds
    nothing and a second [remove] with it returns [false] and changes
    nothing; [get] with any other filter returns what it returned before
    without the records removed. *)
Theorem get_after_remove (input : obj) (st : Userbase) :
  get (Some input) (remove (Some input) st).2 = []
  ∧ remove (Some input) (remove (Some input) st).2
    = (Return false, (remove (Some input) st).2)
  ∧ (∀ query, get (Some query) (remove (Some input) st).2
              = filter (λ l, ¬ matches (deref st l) input = true) (get (Some query) st)).
Proof.
  assert (Hq : ∀ query, get (Some query) (remove (Some input) st).2
              = filter (λ l, ¬ matches (deref st l) input = true) (get (Some query) st)).
  { intros query. rewrite remove_unfold. case_bool_decide as Hlen; cbn [snd].
    - symmetry. apply filter_all_in. intros l Hl Hm.
      assert (Hin : l ∈ get (Some input) st).
      { unfold get. apply list_elem_of_filter. split; [done|].
        by apply elem_of_get in Hl as [? _]. }
      destruct (get (Some input) st); [inversion Hin | done].
    - unfold get. cbn [data save]. rewrite !list_filter_filter.
      apply list_filter_iff. intros l. unfold deref. simpl. tauto. }
  assert (Hnil : get (Some input) (remove (Some input) st).2 = []).
  { rewrite Hq. unfold get. rewrite list_filter_filter.
    induction (data st) as [|l d IH]; [done|].
    rewrite filter_cons_False; [done | tauto]. }
  split_and!; [done | | done].
  rewrite (remove_unfold input (remove (Some input) st).2), Hnil. done.
Qed.

(** *** modify twice *)

(** X17.  [modify] with the same filter and patch a second time leaves
    the store as the first call left it. *)
Theorem modify_twice (find patch : obj) (st : Userbase) :
  (modify (Some find) (Some patch) (modify (Some find) (Some patch) st).2).2
  = (modify (Some find) (Some patch) st).2.
Proof.
  unfold modify at 2 3. case_bool_decide as Hlen; cbn [snd].
  { unfold modify. by rewrite bool_decide_eq_true_2. }
  set (h' := fold_left (λ h user, <[user := assign (default ∅ (h !! user)) patch]> h)
               (get (Some find) st) (heap st)).
  set (st' := save {| rootFile := rootFile st; data := data st; heap := h'; fs := fs st |}).
  unfold modify. case_bool_decide as Hlen'; [done|]. cbn [snd].
  set (h'' := fold_left (λ h user, <[user := assign (default ∅ (h !! user)) patch]> h)
                (get (Some find) st') (heap st')).
  assert (Hh : h'' = h').
  { apply list_eq. intros l. unfold h''. rewrite modify_loop.
    destruct (decide (l ∈ get (Some find) st')) as [Hin|]; [|done].
    change (heap st') with h'. unfold h'. rewrite modify_loop.
    destruct (decide (l ∈ get (Some find) st)) as [|Hnotin].
    - destruct (heap st !! l); simpl; [|done]. by rewrite effective_twice.
    - exfalso. apply Hnotin. unfold get in *. apply list_elem_of_filter in Hin as [Hm Hd].
      apply list_elem_of_filter. split; [|done].
      unfold deref in *. change (heap st') with h' in Hm. unfold h' in Hm.
      rewrite modify_loop in Hm. rewrite decide_False in Hm; [done|].
      intros Hin. apply Hnotin. exact Hin. }
  unfold save. cbn [rootFile data heap fs]. rewrite Hh.
  f_equal. change (heap st') with h'. unfold st', save. cbn [fs rootFile data heap].
  by rewrite insert_insert_eq.
Qed.

(** *** noDuplicate as an invariant *)

Lemma step_unique_on (k : string) (o : op) (st : Userbase) :
  k ≠ "token" → k ≠ "id" → valid st → guards k o →
  unique_on k st → unique_on k (step o st).
Proof.
  intros Htoken Hid Hvalid Hguard Huniq.
  assert (Hkeep : untouched_by k o → (∀ l, l ∈ data (step o st) → l ∈ data st) →
                  unique_on k (step o st)).
  { intros Hun Hin l1 l2 v Hl1 Hl2 H1 H2. apply Hin in Hl1, Hl2.
    rewrite step_untouched in H1, H2 by (try done; by apply Hvalid).
    eapply Huniq; eauto. }
  destruct o as [input|[input|] token id|[input|]|[find|] [patch|]|];
    try (by apply Hkeep).
  - unfold step. rewrite add_unfold. destruct (head _) eqn:Eh; [done|].
    destruct (last _) as [m|] eqn:E; [done|].
    cbn [snd]. apply head_omap_None in Eh. apply last_omap_None in E.
    set (user := <["id" := VStr id]> (<["token" := VStr token]> (built st input ∅))).
    assert (Hold : ∀ l', l' ∈ data st → deref (save (push user st)) l' = deref st l').
    { intros l' Hl'. unfold deref. simpl. by rewrite lookup_app_l by (by apply Hvalid). }
    assert (Hnew : ∀ l' v, l' ∈ data st → deref st l' !! k = Some (VStr v) →
                     deref (save (push user st)) (length (heap st)) !! k = Some (VStr v) →
                     False).
    { intros l' v Hl' Hv Hnewv. unfold deref in Hnewv. simpl in Hnewv.
      rewrite list_lookup_middle in Hnewv by done. simpl in Hnewv. unfold user in Hnewv.
      rewrite !lookup_insert_ne in Hnewv by done.
      apply built_lookup_inv in Hnewv as [Hempty|(d & Hin & Hf & [= Hv'])].
      { by rewrite lookup_empty in Hempty. }
      simpl in Hguard. rewrite Forall_forall in Hguard.
      specialize (Hguard (k, d) Hin eq_refl). simpl in Hguard.
      assert (Hc : collides st (k, d)).
      { split; [done|]. exists l'. split; [done|]. simpl. subst v. by apply js_get_Some. }
      apply field_failure_collides in Hc; [rewrite Hf in Hc; by destruct Hc|].
      rewrite Forall_forall in Eh. by apply Eh. }
    intros l1 l2 v Hl1 Hl2 H1 H2. cbn [data save push] in Hl1, Hl2.
    apply elem_of_app in Hl1 as [Hl1| ->%list_elem_of_singleton],
          Hl2 as [Hl2| ->%list_elem_of_singleton]; try done.
    + rewrite Hold in H1, H2 by done. eapply Huniq; eauto.
    + exfalso. rewrite Hold in H1 by done. eauto.
    + exfalso. rewrite Hold in H2 by done. eauto.
  - apply Hkeep; [done|]. intros l. unfold step. rewrite remove_unfold.
    case_bool_decide; [done|]. simpl. by intros [_ ?]%list_elem_of_filter.
  - apply Hkeep; [exact Hguard|]. unfold step, modify. by case_bool_decide.
Qed.

(** X18.  A key other than [token] and [id] whose values are pairwise
    different in the store stays so through every sequence of calls in
    which each [add] marks the key [noDuplicate] wherever it gives it and
    no [modify] has the key in its patch. *)
Theorem noDuplicate_keeps_unique (k : string) (ops : list op) (st : Userbase) :
  k ≠ "token" → k ≠ "id" → valid st → unique_on k st →
  Forall (guards k) ops →
  unique_on k (run ops st).
Proof.
  intros Htoken Hid. revert st.
  induction ops as [|o ops IH]; intros st Hvalid Huniq Hops; [done|].
  apply Forall_cons in Hops as [Ho Hops]. unfold run in *. cbn [fold_left].
  apply IH; [by apply step_valid | by apply step_unique_on | done].
Qed.

End Store.

(** ** Examples *)

Lemma valid_one_store : valid one_store.
Proof. intros l Hl. apply list_elem_of_singleton in Hl. subst l. simpl. lia. Defined.



(** C2 as stated fails: the filter [{nick: undefined}] selects a record
    that has no [nick]. *)
Lemma get_selects_record_without_key :
  get (Some {[ "nick" := VUndef ]}) one_store = [0%nat]
  ∧ deref one_store 0 !! "nick" = None.
Proof. split; vm_compute; reflexivity. Qed.

(** C3 as stated fails: [add] fails on an empty store, where nothing can
    collide, when the rule check of the [noDuplicate] field fails; and a
    [noDuplicate] field named [token], or [__proto__], is added twice with
    the same value. *)
Lemma add_fails_without_collision :
  add sample
      (Some [("name", mkDescriptor "ab" true (Some (only_minLength 3)))])
      "t" "i" empty_store
  = (Return (Failure "Value must be at least 3 characters long!"), empty_store)
  ∧ data empty_store = []
  ∧ (add sample (Some [("token", mkDescriptor "x" true None)]) "t2" "i2"
       (add sample (Some [("token", mkDescriptor "x" true None)]) "t1" "i1"
            empty_store).2).1
    = Return (Success 1%nat)
  ∧ (add sample (Some [("__proto__", mkDescriptor "x" true None)]) "t2" "i2"
       (add sample (Some [("__proto__", mkDescriptor "x" true None)]) "t1" "i1"
            empty_store).2).1
    = Return (Success 1%nat).
Proof. split_and!; vm_compute; reflexivity. Qed.

(** C3 at a single [noDuplicate] field without rules. *)
Lemma add_noDuplicate_witness :
  ∃ l st1 message,
    add sample (Some [("name", mkDescriptor "bob" true None)]) "t1" "i1" empty_store
    = (Return (Success l), st1)
    ∧ add sample (Some [("name", mkDescriptor "bob" true None)]) "t2" "i2" st1
      = (Return (Failure message), st1)
    ∧ contains "already exists" message
    ∧ length (data st1) = 1%nat.
Proof.
  assert (Hrules : Forall (rules_pass sample)
                     [("name", mkDescriptor "bob" true None)]).
  { constructor; [|constructor]. intros r Hr. discriminate Hr. }
  apply (proj2 (proj2 (add_noDuplicate sample
                         [("name", mkDescriptor "bob" true None)] "t1" "i1"
                         empty_store Hrules))
           "name" (mkDescriptor "bob" true None) "t2" "i2").
  - reflexivity.
  - constructor; [|constructor]. intros Hin. inversion Hin.
  - left.
  - reflexivity.
  - discriminate.
  - discriminate.
  - discriminate.
Defined.

(** C4 as stated fails: the value has a space and the rule set asks for
    [noSpaces], yet the validator returns no failure: it throws, at the
    pattern that is no regular expression. *)
Lemma checkRules_throws_on_bad_pattern :
  checkRules sample "a b" (mkRuleSet None None (Some "+") (Some true) None None None)
  = Throw (SyntaxError "+")
  ∧ has_char is_space "a b" = true.
Proof. split; vm_compute; reflexivity. Qed.

(** C6 as stated fails: a [modify] whose patch has [id] changes the [id]
    of the record it selects. *)
Lemma modify_overwrites_id :
  deref one_store 0 !! "id" = Some (VStr "1f")
  ∧ deref (run sample
             [OpModify (Some {[ "name" := VStr "ann" ]}) (Some {[ "id" := VStr "x" ]})]
             one_store) 0 !! "id"
    = Some (VStr "x").
Proof. split; vm_compute; reflexivity. Qed.

(** C6 at a [modify] that renames the user. *)
Lemma id_token_kept_witness :
  deref (run sample
           [OpModify (Some {[ "name" := VStr "ann" ]}) (Some {[ "name" := VStr "bob" ]})]
           one_store) 0 !! "id"
  = deref one_store 0 !! "id".
Proof.
  assert (Hl : (0 < length (heap one_store))%nat) by (simpl; lia).
  apply (proj1 (id_token_kept sample
                  [OpModify (Some {[ "name" := VStr "ann" ]})
                            (Some {[ "name" := VStr "bob" ]})]
                  one_store 0%nat Hl)).
  constructor; [reflexivity | constructor].
Defined.

(** C7 as stated fails: [remove] takes an empty object as filter without
    throwing, and removes the record. *)
Lemma remove_accepts_empty_object :
  remove (Some ∅) one_store
  = (Return true,
     save {| rootFile := "users.json"; data := []; heap := [ann]; fs := fs one_store |}).
Proof. vm_compute. reflexivity. Qed.

(** C8 as stated fails: a patch with the key [__proto__] is not written
    onto a record that has no member of that name, and [get] on the patch
    then does not return the record that [modify] selected. *)
Lemma modify_does_not_write_proto :
  get (Some {[ "name" := VStr "ann" ]}) one_store = [0%nat]
  ∧ (modify (Some {[ "name" := VStr "ann" ]}) (Some {[ "__proto__" := VStr "x" ]})
            one_store).1
    = Return true
  ∧ deref (modify (Some {[ "name" := VStr "ann" ]}) (Some {[ "__proto__" := VStr "x" ]})
                  one_store).2 0
    = deref one_store 0
  ∧ get (Some {[ "__proto__" := VStr "x" ]})
        (modify (Some {[ "name" := VStr "ann" ]}) (Some {[ "__proto__" := VStr "x" ]})
                one_store).2
    = [].
Proof. split_and!; vm_compute; reflexivity. Qed.

(** C8 at a [modify] that renames the user. *)
Lemma modify_spec_witness :
  ∃ st',
    modify (Some {[ "name" := VStr "ann" ]}) (Some {[ "name" := VStr "bob" ]}) one_store
    = (Return true, st')
    ∧ data st' = data one_store
    ∧ ∀ l, l ∈ get (Some {[ "name" := VStr "ann" ]}) one_store →
           ({[ "name" := VStr "bob" ]} : obj) !! "__proto__" = None
           ∨ deref one_store l !! "__proto__" ≠ None →
           l ∈ get (Some {[ "name" := VStr "bob" ]}) st'.
Proof.
  destruct (proj2 (proj2 (proj2 (proj2
              (modify_spec {[ "name" := VStr "ann" ]} {[ "name" := VStr "bob" ]}
                           one_store valid_one_store)))))
    as (st' & Hm & Hd & _ & _ & _ & _ & _ & _ & Hg & _).
  - vm_compute. discriminate.
  - exists st'. split; [exact Hm|]. split; [exact Hd | exact Hg].
Defined.


(** C10 as stated fails: on a store without records [remove] with an empty
    object returns [false]. *)
Lemma remove_empty_object_on_empty_store :
  remove (Some ∅) empty_store = (Return false, empty_store).
Proof. vm_compute. reflexivity. Qed.

(** ** Examples for the further properties *)

(** X2 at a value of letters and digits. *)
Lemma checkRules_character_flags_witness :
  Forall (λ c, is_letter c || is_digit c = true) (String.list_ascii_of_string "abc1")
  ∧ has_char is_space "abc1" = false.
Proof.
  pose proof (checkRules_character_flags sample "abc1"
                (mkRuleSet None None None None (Some true) None None)
                eq_refl eq_refl) as H.
  exact (conj (proj1 H) (proj1 (proj2 H))).
Defined.

(** X3 at [minLength: 5] with [maxLength: 3]. *)
Lemma checkRules_length_conflict_witness :
  ∃ message,
    checkRules sample "abcd" (mkRuleSet (Some 5) (Some 3) None None None None None)
    = Return (Failure message).
Proof.
  apply (checkRules_length_conflict sample "abcd"
           (mkRuleSet (Some 5) (Some 3) None None None None None) 3).
  - reflexivity.
  - discriminate.
  - right. exists 5. split; [reflexivity|]. split; [discriminate | reflexivity].
Defined.

(** X4 at buffers of equal bytes. *)
Lemma token_and_id_are_hex_witness :
  String.length (generateToken (replicate 64 Byte.x2a)) = 128%nat
  ∧ String.length (generateID (replicate 16 Byte.xff)) = 32%nat.
Proof.
  pose proof (token_and_id_are_hex (replicate 64 Byte.x2a) (replicate 16 Byte.xff)
                eq_refl eq_refl) as H.
  exact (conj (proj1 H) (proj1 (proj2 H))).
Defined.

(** X8 at a store opened on a missing file, after two [add]s and a
    [remove]. *)
Lemma records_are_distinct_witness :
  NoDup (data (run sample
                 [OpAdd (Some [("name", mkDescriptor "bob" true None)]) "t1" "i1";
                  OpAdd (Some [("name", mkDescriptor "eve" true None)]) "t2" "i2";
                  OpRemove (Some {[ "name" := VStr "bob" ]})]
                 empty_store)).
Proof.
  apply (records_are_distinct sample "users.json" ∅
           [OpAdd (Some [("name", mkDescriptor "bob" true None)]) "t1" "i1";
            OpAdd (Some [("name", mkDescriptor "eve" true None)]) "t2" "i2";
            OpRemove (Some {[ "name" := VStr "bob" ]})]
           empty_store None).
  vm_compute. reflexivity.
Defined.


(** X10 at an [add] and a [remove] that selects nothing. *)
Lemma only_modify_writes_witness :
  deref (run sample
           [OpAdd (Some [("name", mkDescriptor "bob" true None)]) "t1" "i1";
            OpRemove (Some {[ "name" := VStr "eve" ]})]
           one_store) 0
  = deref one_store 0.
Proof.
  assert (Hl : (0 < length (heap one_store))%nat) by (simpl; lia).
  apply (proj2 (only_modify_writes sample "name"
                  [OpAdd (Some [("name", mkDescriptor "bob" true None)]) "t1" "i1";
                   OpRemove (Some {[ "name" := VStr "eve" ]})]
                  one_store 0%nat Hl)).
  repeat constructor.
Defined.

(** X12 at an [add] to the store of one user. *)
Lemma add_success_witness :
  data (add sample (Some [("name", mkDescriptor "bob" true None)]) "t1" "i1"
            one_store).2
  = data one_store ++ [1%nat].
Proof.
  assert (Hadd : add sample (Some [("name", mkDescriptor "bob" true None)])
                     "t1" "i1" one_store
                 = (Return (Success 1%nat),
                    (add sample (Some [("name", mkDescriptor "bob" true None)])
                         "t1" "i1" one_store).2))
    by (vm_compute; reflexivity).
  exact (proj1 (proj2 (proj2
           (add_success sample _ _ _ _ _ _ valid_one_store Hadd)))).
Defined.

(** X13 at the same [add]: the new record is found by its id. *)
Lemma get_after_add_finds_witness :
  1%nat ∈ get (Some {[ "id" := VStr "i1" ]})
            (add sample (Some [("name", mkDescriptor "bob" true None)]) "t1" "i1"
                 one_store).2.
Proof.
  assert (Hadd : add sample (Some [("name", mkDescriptor "bob" true None)])
                     "t1" "i1" one_store
                 = (Return (Success 1%nat),
                    (add sample (Some [("name", mkDescriptor "bob" true None)])
                         "t1" "i1" one_store).2))
    by (vm_compute; reflexivity).
  exact (proj1 (proj2 (proj2
           (get_after_add_finds sample _ _ _ _ _ _ valid_one_store Hadd)))).
Defined.

(** X14 at the same [add], taken back by [remove]. *)
Lemma remove_after_add_witness :
  records (remove (Some {[ "id" := VStr "i1" ]})
             (add sample (Some [("name", mkDescriptor "bob" true None)]) "t1" "i1"
                  one_store).2).2
  = records one_store.
Proof.
  assert (Hadd : add sample (Some [("name", mkDescriptor "bob" true None)])
                     "t1" "i1" one_store
                 = (Return (Success 1%nat),
                    (add sample (Some [("name", mkDescriptor "bob" true None)])
                         "t1" "i1" one_store).2))
    by (vm_compute; reflexivity).
  assert (Hfresh : ∀ l', l' ∈ data one_store → js_get (deref one_store l') "id" ≠ VStr "i1").
  { intros l' Hl'. apply list_elem_of_singleton in Hl'. subst l'.
    vm_compute. discriminate. }
  exact (proj2 (proj2
           (remove_after_add sample _ _ _ _ _ _ valid_one_store Hfresh Hadd))).
Defined.

(** X18 at the key [name] and an [add] that marks it [noDuplicate]. *)
Lemma noDuplicate_keeps_unique_witness :
  unique_on "name"
    (run sample
       [OpAdd (Some [("name", mkDescriptor "ann" true None)]) "t1" "i1";
        OpAdd (Some [("name", mkDescriptor "bob" true None)]) "t2" "i2"]
       one_store).
Proof.
  apply (noDuplicate_keeps_unique sample "name").
  - discriminate.
  - discriminate.
  - exact valid_one_store.
  - intros l1 l2 v Hl1 Hl2 _ _.
    apply list_elem_of_singleton in Hl1, Hl2. congruence.
  - repeat constructor.
Defined.
